(** * The in-process asynchronous task engine (AsyncTaskService)

    A shallow embedding of
    [src/infrastructure/async-tasks/async-task.service.ts].

    Conventions of the embedding:
    - JavaScript numbers that hold millisecond instants, durations and
      counters are integers ([Z]); a [Date] is its [getTime()] value.
    - Task records are JavaScript objects that the registry (a [Map]) and the
      suspended activations of [processNextTask] share by reference.  The
      objects live in a store ([heap]) indexed by reference; the [Map] holds
      references, in insertion order.
    - An [async] method is split at its [await]: the synchronous part runs as
      one step, the continuation as a later step.  Timers and promise
      settlements are events delivered by the event loop.
    - Clock readings taken inside one synchronous run are the same instant
      [now]; the random suffix of a task id is an input [rnd]. *)

From stdpp Require Import base list strings pretty.

Local Open Scope Z_scope.

(** ** Data model *)

Inductive Priority := low | normal | high.
Inductive Status := pending | running | completed | failed.

#[global] Instance Priority_eq_dec : EqDecision Priority.
Proof. solve_decision. Defined.
#[global] Instance Status_eq_dec : EqDecision Status.
Proof. solve_decision. Defined.

(** [TaskOptions]: every field may be omitted. *)
Module TaskOptions.
Record t := mk {
  delay : option Z;
  priority : option Priority;
  retries : option Z;
  retryDelay : option Z;
  timeout : option Z
}.
(** The default argument [options = {}]. *)
Definition empty : t := mk None None None None None.
End TaskOptions.

(** [Required<TaskOptions>]. *)
Record RequiredTaskOptions := mkOptions {
  delay : Z;
  priority : Priority;
  retries : Z;
  retryDelay : Z;
  timeout : Z
}.

(** A handler is an opaque closure; only its identity matters here. *)
Definition Handler := nat.

Record QueuedTask := mkTask {
  id : string;
  name : string;
  handler : Handler;
  options : RequiredTaskOptions;
  createdAt : Z;
  attempts : Z;
  lastAttempt : option Z;
  nextRetry : option Z;
  status : Status
}.

Definition set_status (st : Status) (t : QueuedTask) : QueuedTask :=
  mkTask (id t) (name t) (handler t) (options t) (createdAt t) (attempts t)
         (lastAttempt t) (nextRetry t) st.
Definition set_attempts (n : Z) (t : QueuedTask) : QueuedTask :=
  mkTask (id t) (name t) (handler t) (options t) (createdAt t) n
         (lastAttempt t) (nextRetry t) (status t).
Definition set_lastAttempt (d : Z) (t : QueuedTask) : QueuedTask :=
  mkTask (id t) (name t) (handler t) (options t) (createdAt t) (attempts t)
         (Some d) (nextRetry t) (status t).
Definition set_nextRetry (d : Z) (t : QueuedTask) : QueuedTask :=
  mkTask (id t) (name t) (handler t) (options t) (createdAt t) (attempts t)
         (lastAttempt t) (Some d) (status t).

Record ByPriority := mkByPriority {
  bp_high : Z;
  bp_normal : Z;
  bp_low : Z
}.

Record QueueStats := mkStats {
  qs_total : Z;
  qs_pending : Z;
  qs_running : Z;
  qs_completed : Z;
  qs_failed : Z;
  qs_runningTasks : Z;
  qs_maxConcurrentTasks : Z;
  qs_workers : Z;
  qs_isEnabled : bool;
  qs_byPriority : ByPriority
}.

(** The part of [AppConfig] the service reads, with the optional chaining of
    [appConfig?.features?.asyncTasksEnabled]. *)
Record FeatureFlags := mkFeatures {
  cacheEnabled : bool;
  performanceLogging : bool;
  detailedErrors : bool;
  swaggerEnabled : bool;
  healthChecksEnabled : bool;
  asyncTasksEnabled : option bool
}.

Record AppConfig := mkAppConfig {
  port : Z;
  prefix : string;
  features : option FeatureFlags
}.

(** ** JavaScript [Map]: keys in insertion order *)

Module JsMap.
Abbreviation t V := (list (string * V)) (only parsing).

Section Ops.
Context {V : Type}.
Local Abbreviation t := (list (string * V)) (only parsing).

Fixpoint get (k : string) (m : t) : option V :=
  match m with
  | [] => None
  | (k', v) :: m' => if decide (k' = k) then Some v else get k m'
  end.

(** [set] keeps the position of a key that is present and appends a new
    key at the end. *)
Fixpoint set (k : string) (v : V) (m : t) : t :=
  match m with
  | [] => [(k, v)]
  | (k', v') :: m' =>
      if decide (k' = k) then (k, v) :: m' else (k', v') :: set k v m'
  end.

Definition delete (k : string) (m : t) : t :=
  filter (λ e, e.1 ≠ k) m.

Definition values (m : t) : list V := m.*2.
Definition keys (m : t) : list string := m.*1.
Definition size (m : t) : nat := length m.
End Ops.
End JsMap.

(** ** [Array.prototype.sort] with a comparator

    The sort is stable: of two elements that compare equal, the one that
    came first stays first. *)

Section ArraySort.
Context {A : Type} (compare : A → A → Z).

Fixpoint sort_insert (x : A) (l : list A) : list A :=
  match l with
  | [] => [x]
  | y :: l' =>
      if compare x y <=? 0 then x :: l else y :: sort_insert x l'
  end.

Fixpoint array_sort (l : list A) : list A :=
  match l with
  | [] => []
  | x :: l' => sort_insert x (array_sort l')
  end.
End ArraySort.

(** ** [executeWithTimeout]: a promise raced against a timer *)

Inductive Settlement :=
  | Fulfilled (result : string)
  | Rejected (error : string).

Inductive TimerState := Armed | Fired | Cleared.

#[global] Instance TimerState_eq_dec : EqDecision TimerState.
Proof. solve_decision. Defined.

(** The promise returned by [executeWithTimeout] and the timer it owns. *)
Record Execution := mkExecution {
  timeoutMs : Z;
  timer : TimerState;
  promise : option Settlement
}.

(** [resolve] and [reject] of a promise settle it once; later calls are
    ignored. *)
Definition settle (o : Settlement) (p : option Settlement) : option Settlement :=
  match p with
  | None => Some o
  | Some _ => p
  end.

Definition clearTimeout (t : TimerState) : TimerState :=
  match t with
  | Armed => Cleared
  | _ => t
  end.

Definition timeoutMessage (ms : Z) : string :=
  "Task timeout after " +:+ pretty ms +:+ "ms".

(** The executor of the promise: arm the timer, then call the handler once.
    The calls made to handlers are recorded in a log. *)
Definition executeWithTimeout (h : Handler) (ms : Z) (log : list Handler)
  : list Handler * Execution :=
  (log ++ [h], mkExecution ms Armed None).

(** The events that reach the promise afterwards. *)
Inductive ExecEvent :=
  | TimerFires
  | HandlerSettles (o : Settlement).

(** The callback of [setTimeout]; a timer that was cleared or has fired does
    not fire. *)
Definition onTimeout (e : Execution) : Execution :=
  match timer e with
  | Armed =>
      mkExecution (timeoutMs e) Fired
        (settle (Rejected (timeoutMessage (timeoutMs e))) (promise e))
  | _ => e
  end.

(** The [.then] and [.catch] callbacks on the handler's promise. *)
Definition onHandlerSettled (o : Settlement) (e : Execution) : Execution :=
  mkExecution (timeoutMs e) (clearTimeout (timer e)) (settle o (promise e)).

Definition exec_event (ev : ExecEvent) (e : Execution) : Execution :=
  match ev with
  | TimerFires => onTimeout e
  | HandlerSettles o => onHandlerSettled o e
  end.


(** ** The service *)

(** A call of [processNextTask] suspended at its [await]: the task object it
    holds and the promise it waits for. *)
Record Activation := mkActivation {
  act_task : nat;
  act_exec : Execution
}.

Record AsyncTaskService := mkService {
  (** the task objects, by reference *)
  heap : list QueuedTask;
  (** [tasks = new Map<string, QueuedTask>()] *)
  tasks : JsMap.t nat;
  (** [workers = new Set<NodeJS.Timeout>()]: the period of each interval *)
  workers : list Z;
  maxConcurrentTasks : Z;
  defaultRetries : Z;
  defaultRetryDelay : Z;
  defaultTimeout : Z;
  isEnabled : bool;
  isShuttingDown : bool;
  runningTasks : Z;
  (** event-loop state created by the service *)
  awaiting : list Activation;
  (** [setTimeout(() => this.tasks.delete(task.id), 60000)]: id and delay *)
  purgeTimers : list (string * Z);
  (** log of the handler invocations *)
  handlerCalls : list Handler
}.

Definition with_heap (h : list QueuedTask) (s : AsyncTaskService) :=
  mkService h (tasks s) (workers s) (maxConcurrentTasks s) (defaultRetries s)
    (defaultRetryDelay s) (defaultTimeout s) (isEnabled s) (isShuttingDown s)
    (runningTasks s) (awaiting s) (purgeTimers s) (handlerCalls s).
Definition with_tasks (m : JsMap.t nat) (s : AsyncTaskService) :=
  mkService (heap s) m (workers s) (maxConcurrentTasks s) (defaultRetries s)
    (defaultRetryDelay s) (defaultTimeout s) (isEnabled s) (isShuttingDown s)
    (runningTasks s) (awaiting s) (purgeTimers s) (handlerCalls s).
Definition with_workers (w : list Z) (s : AsyncTaskService) :=
  mkService (heap s) (tasks s) w (maxConcurrentTasks s) (defaultRetries s)
    (defaultRetryDelay s) (defaultTimeout s) (isEnabled s) (isShuttingDown s)
    (runningTasks s) (awaiting s) (purgeTimers s) (handlerCalls s).
Definition with_isShuttingDown (b : bool) (s : AsyncTaskService) :=
  mkService (heap s) (tasks s) (workers s) (maxConcurrentTasks s)
    (defaultRetries s) (defaultRetryDelay s) (defaultTimeout s) (isEnabled s)
    b (runningTasks s) (awaiting s) (purgeTimers s) (handlerCalls s).
Definition with_runningTasks (n : Z) (s : AsyncTaskService) :=
  mkService (heap s) (tasks s) (workers s) (maxConcurrentTasks s)
    (defaultRetries s) (defaultRetryDelay s) (defaultTimeout s) (isEnabled s)
    (isShuttingDown s) n (awaiting s) (purgeTimers s) (handlerCalls s).
Definition with_awaiting (a : list Activation) (s : AsyncTaskService) :=
  mkService (heap s) (tasks s) (workers s) (maxConcurrentTasks s)
    (defaultRetries s) (defaultRetryDelay s) (defaultTimeout s) (isEnabled s)
    (isShuttingDown s) (runningTasks s) a (purgeTimers s) (handlerCalls s).
Definition with_purgeTimers (p : list (string * Z)) (s : AsyncTaskService) :=
  mkService (heap s) (tasks s) (workers s) (maxConcurrentTasks s)
    (defaultRetries s) (defaultRetryDelay s) (defaultTimeout s) (isEnabled s)
    (isShuttingDown s) (runningTasks s) (awaiting s) p (handlerCalls s).
Definition with_handlerCalls (c : list Handler) (s : AsyncTaskService) :=
  mkService (heap s) (tasks s) (workers s) (maxConcurrentTasks s)
    (defaultRetries s) (defaultRetryDelay s) (defaultTimeout s) (isEnabled s)
    (isShuttingDown s) (runningTasks s) (awaiting s) (purgeTimers s) c.

(** A method that may throw. *)
Inductive Result (A : Type) :=
  | Return (a : A)
  | Throw (message : string).
Arguments Return {A} a.
Arguments Throw {A} message.

(** [startWorkers]: one interval of 100 ms per unit of concurrency. *)
Definition startWorkers (s : AsyncTaskService) : AsyncTaskService :=
  with_workers (workers s ++ replicate (Z.to_nat (maxConcurrentTasks s)) 100) s.

(** The constructor: field initialisers, then the feature flag. *)
Definition constructor (appConfig : option AppConfig) : AsyncTaskService :=
  let enabled :=
    match appConfig with
    | Some c =>
        match features c with
        | Some f => default false (asyncTasksEnabled f)
        | None => false
        end
    | None => false
    end in
  let this := mkService [] [] [] 5 3 5000 30000 enabled false 0 [] [] [] in
  if enabled then startWorkers this else this.

(** [task_${Date.now()}_${Math.random().toString(36).substr(2, 9)}] *)
Definition generateTaskId (now : Z) (rnd : string) : string :=
  "task_" +:+ pretty now +:+ "_" +:+ rnd.

Definition normalize (s : AsyncTaskService) (o : TaskOptions.t)
  : RequiredTaskOptions :=
  mkOptions
    (default 0 (TaskOptions.delay o))
    (default normal (TaskOptions.priority o))
    (default (defaultRetries s) (TaskOptions.retries o))
    (default (defaultRetryDelay s) (TaskOptions.retryDelay o))
    (default (defaultTimeout s) (TaskOptions.timeout o)).

Definition addTask (name : string) (h : Handler) (o : TaskOptions.t)
    (now : Z) (rnd : string) (s : AsyncTaskService)
  : Result (string * AsyncTaskService) :=
  if negb (isEnabled s) then Throw "Async Task Service is disabled"
  else
    let taskId := generateTaskId now rnd in
    let task := mkTask taskId name h (normalize s o) now 0 None None pending in
    let r := length (heap s) in
    Return (taskId,
            with_tasks (JsMap.set taskId r (tasks s))
              (with_heap (heap s ++ [task]) s)).

Definition with_delay (d : Z) (o : TaskOptions.t) : TaskOptions.t :=
  TaskOptions.mk (Some d) (TaskOptions.priority o) (TaskOptions.retries o)
    (TaskOptions.retryDelay o) (TaskOptions.timeout o).

Definition addDelayedTask name h (delayMs : Z) o now rnd s :=
  addTask name h (with_delay delayMs o) now rnd s.

(** [this.tasks.get(taskId)], dereferenced. *)
Definition lookupTask (s : AsyncTaskService) (taskId : string)
  : option QueuedTask :=
  match JsMap.get taskId (tasks s) with
  | Some r => heap s !! r
  | None => None
  end.

Definition getTaskStatus (s : AsyncTaskService) (taskId : string)
  : option QueuedTask :=
  lookupTask s taskId.

Definition cancelTask (taskId : string) (s : AsyncTaskService)
  : bool * AsyncTaskService :=
  match lookupTask s taskId with
  | None => (false, s)
  | Some task =>
      if bool_decide (status task = running)
         || bool_decide (status task = completed)
      then (false, s)
      else (true, with_tasks (JsMap.delete taskId (tasks s)) s)
  end.

(** [Array.from(this.tasks.entries())] and [Array.from(this.tasks.values())],
    each object with its reference. *)
Definition taskEntries (s : AsyncTaskService) : list (string * QueuedTask) :=
  omap (λ e, (e.1,.) <$> heap s !! e.2) (tasks s).
Definition taskRefs (s : AsyncTaskService) : list (nat * QueuedTask) :=
  omap (λ e, (e.2,.) <$> heap s !! e.2) (tasks s).
Definition taskValues (s : AsyncTaskService) : list QueuedTask :=
  (taskRefs s).*2.

Definition count (P : QueuedTask → Prop) `{∀ t, Decision (P t)}
    (l : list QueuedTask) : Z :=
  Z.of_nat (length (filter P l)).

Definition getQueueStats (s : AsyncTaskService) : QueueStats :=
  let ts := taskValues s in
  mkStats
    (Z.of_nat (length ts))
    (count (λ t, status t = pending) ts)
    (count (λ t, status t = running) ts)
    (count (λ t, status t = completed) ts)
    (count (λ t, status t = failed) ts)
    (runningTasks s)
    (maxConcurrentTasks s)
    (Z.of_nat (length (workers s)))
    (isEnabled s)
    (mkByPriority
       (count (λ t, priority (options t) = high ∧ status t = pending) ts)
       (count (λ t, priority (options t) = normal ∧ status t = pending) ts)
       (count (λ t, priority (options t) = low ∧ status t = pending) ts)).

Definition finished (t : QueuedTask) : Prop :=
  status t = completed ∨ status t = failed.

#[global] Instance finished_dec t : Decision (finished t).
Proof. unfold finished. apply _. Defined.

Definition clearCompletedTasks (s : AsyncTaskService)
  : Z * AsyncTaskService :=
  let toRemove := filter (λ e, finished e.2) (taskEntries s) in
  let m := foldl (λ m e, JsMap.delete e.1 m) (tasks s) toRemove in
  (Z.of_nat (length toRemove), with_tasks m s).

(** *** Selection *)

Definition available (now : Z) (t : QueuedTask) : bool :=
  if negb (bool_decide (status t = pending)) then false
  else if match nextRetry t with Some d => now <? d | None => false end
       then false
  else createdAt t + delay (options t) <=? now.

Definition priorityOrder (p : Priority) : Z :=
  match p with
  | high => 3
  | normal => 2
  | low => 1
  end.

(** The comparator passed to [sort]. *)
Definition compareTasks (a b : QueuedTask) : Z :=
  let aPriority := priorityOrder (priority (options a)) in
  let bPriority := priorityOrder (priority (options b)) in
  if negb (aPriority =? bPriority) then bPriority - aPriority
  else createdAt a - createdAt b.

Definition getNextTask (now : Z) (s : AsyncTaskService)
  : option (nat * QueuedTask) :=
  let availableTasks := filter (λ x, available now x.2) (taskRefs s) in
  match availableTasks with
  | [] => None
  | _ => head (array_sort (λ a b, compareTasks a.2 b.2) availableTasks)
  end.

(** *** Dispatch *)

(** [processNextTask] up to its [await]: the check of the counter, the
    selection, the claim and the start of the execution run without
    suspension. *)
Definition processNextTask (now : Z) (s : AsyncTaskService)
  : AsyncTaskService :=
  if maxConcurrentTasks s <=? runningTasks s then s
  else
    match getNextTask now s with
    | None => s
    | Some (r, task) =>
        let task' :=
          set_lastAttempt now
            (set_attempts (attempts task + 1) (set_status running task)) in
        let '(log, e) :=
          executeWithTimeout (handler task') (timeout (options task'))
            (handlerCalls s) in
        with_awaiting (awaiting s ++ [mkActivation r e])
          (with_handlerCalls log
             (with_heap (<[r := task']> (heap s))
                (with_runningTasks (runningTasks s + 1) s)))
    end.

(** The outcome handling of the attempt on the object [r]: the rest of the
    [try] block when the awaited promise is fulfilled, the [catch] block when
    it is rejected. *)
Definition handleOutcome (r : nat) (o : Settlement) (now : Z)
    (s : AsyncTaskService) : AsyncTaskService :=
  match heap s !! r with
  | None => s
  | Some task =>
      match o with
      | Fulfilled _ =>
          with_purgeTimers (purgeTimers s ++ [(id task, 60000)])
            (with_heap (<[r := set_status completed task]> (heap s)) s)
      | Rejected _ =>
          if attempts task <? retries (options task)
          then
            with_heap
              (<[r := set_nextRetry (now + retryDelay (options task))
                        (set_status pending task)]> (heap s)) s
          else with_heap (<[r := set_status failed task]> (heap s)) s
      end
  end.

(** [processNextTask] after its [await], with the [finally] block. *)
Definition processNextTask_resume (r : nat) (o : Settlement) (now : Z)
    (s : AsyncTaskService) : AsyncTaskService :=
  let s' := handleOutcome r o now s in
  with_runningTasks (runningTasks s' - 1) s'.

(** [onModuleDestroy] up to its first [await]. *)
Definition onModuleDestroy (s : AsyncTaskService) : AsyncTaskService :=
  with_workers [] (with_isShuttingDown true s).

(** ** The event loop *)

Inductive Event :=
  | CallAddTask (name : string) (h : Handler) (o : TaskOptions.t)
      (now : Z) (rnd : string)
  | CallCancelTask (taskId : string)
  | CallClearCompletedTasks
  | WorkerTick (now : Z)
  | AttemptEvent (r : nat) (ev : ExecEvent)
  | Resume (r : nat) (now : Z)
  | PurgeTimerFires (taskId : string)
  | CallOnModuleDestroy.

(** The first suspended activation that holds the object [r], and the
    others. *)
Fixpoint take_activation (r : nat) (l : list Activation)
  : option (Activation * list Activation) :=
  match l with
  | [] => None
  | a :: l' =>
      if decide (act_task a = r) then Some (a, l')
      else
        match take_activation r l' with
        | Some (b, l'') => Some (b, a :: l'')
        | None => None
        end
  end.

Fixpoint take_timer (k : string) (l : list (string * Z))
  : option (list (string * Z)) :=
  match l with
  | [] => None
  | e :: l' =>
      if decide (e.1 = k) then Some l'
      else (e ::.) <$> take_timer k l'
  end.

Definition deliver (r : nat) (ev : ExecEvent) (a : Activation) : Activation :=
  if decide (act_task a = r) then mkActivation r (exec_event ev (act_exec a))
  else a.

(** One turn of the event loop.  An event that has no callback registered
    (no interval, no suspended activation, no purge timer) changes
    nothing. *)
Definition dispatch (ev : Event) (s : AsyncTaskService) : AsyncTaskService :=
  match ev with
  | CallAddTask name h o now rnd =>
      match addTask name h o now rnd s with
      | Return (_, s') => s'
      | Throw _ => s
      end
  | CallCancelTask taskId => (cancelTask taskId s).2
  | CallClearCompletedTasks => (clearCompletedTasks s).2
  | WorkerTick now =>
      match workers s with
      | [] => s
      | _ => if isShuttingDown s then s else processNextTask now s
      end
  | AttemptEvent r ev => with_awaiting (deliver r ev <$> awaiting s) s
  | Resume r now =>
      match take_activation r (awaiting s) with
      | Some (a, rest) =>
          match promise (act_exec a) with
          | Some o => processNextTask_resume r o now (with_awaiting rest s)
          | None => s
          end
      | None => s
      end
  | PurgeTimerFires taskId =>
      match take_timer taskId (purgeTimers s) with
      | Some rest =>
          with_tasks (JsMap.delete taskId (tasks s)) (with_purgeTimers rest s)
      | None => s
      end
  | CallOnModuleDestroy => onModuleDestroy s
  end.

Definition run (evs : list Event) (s : AsyncTaskService) : AsyncTaskService :=
  foldl (λ s ev, dispatch ev s) s evs.

Inductive reachable : AsyncTaskService → Prop :=
  | reachable_init cfg : reachable (constructor cfg)
  | reachable_step s ev : reachable s → reachable (dispatch ev s).

(** The configuration of a deployment with the feature flag on. *)
Definition enabledConfig : AppConfig :=
  mkAppConfig 3000 "api"
    (Some (mkFeatures true false true true true (Some true))).
Definition disabledConfig : AppConfig :=
  mkAppConfig 3000 "api"
    (Some (mkFeatures true false true true true (Some false))).

(** ** Vocabulary of the properties *)

(** [a] comes strictly before [b]: higher priority, or the same priority
    and created earlier. *)
Definition outranks (a b : QueuedTask) : Prop :=
  priorityOrder (priority (options b)) < priorityOrder (priority (options a))
  ∨ (priority (options a) = priority (options b) ∧ createdAt a < createdAt b).

#[global] Instance outranks_dec a b : Decision (outranks a b).
Proof. unfold outranks. apply _. Defined.


(** The objects held by the suspended activations. *)
Definition awaitingRefs (s : AsyncTaskService) : list nat :=
  act_task <$> awaiting s.

(** What holds of every state the engine can reach. *)
Record invariant (s : AsyncTaskService) : Prop := mkInvariant {
  inv_counter : runningTasks s = Z.of_nat (length (awaiting s));
  inv_bound : runningTasks s <= maxConcurrentTasks s;
  inv_readonly :
    maxConcurrentTasks s = 5 ∧ defaultRetries s = 3
    ∧ defaultRetryDelay s = 5000 ∧ defaultTimeout s = 30000;
  inv_awaiting_nodup : NoDup (awaitingRefs s);
  inv_awaiting_running :
    ∀ r, r ∈ awaitingRefs s → ∃ t, heap s !! r = Some t ∧ status t = running;
  inv_running_awaiting :
    ∀ r t, heap s !! r = Some t → status t = running → r ∈ awaitingRefs s;
  inv_keys : NoDup (JsMap.keys (tasks s));
  inv_refs : NoDup (JsMap.values (tasks s));
  inv_valid : ∀ r, r ∈ JsMap.values (tasks s) → (r < length (heap s))%nat
}.


(** The object behind a reference is completed or failed. *)
Definition finishedRef (s : AsyncTaskService) (r : nat) : Prop :=
  match heap s !! r with
  | Some t => finished t
  | None => False
  end.

#[global] Instance finishedRef_dec s r : Decision (finishedRef s r).
Proof. unfold finishedRef. destruct (heap s !! r); apply _. Defined.

(** A parameter of the constructed service depends on the configuration. *)
Definition configurable {A : Type} (param : AsyncTaskService → A) : Prop :=
  ∃ c1 c2, param (constructor c1) ≠ param (constructor c2).

(** The statement that construction takes all of its parameters from the
    configuration: the flag, the maximum concurrency, the default retry
    count, retry delay and timeout, the period of the polling intervals and
    the retention delay of the purge timers. *)
Definition consumes_configuration : Prop :=
  configurable isEnabled
  ∧ configurable maxConcurrentTasks
  ∧ configurable defaultRetries
  ∧ configurable defaultRetryDelay
  ∧ configurable defaultTimeout
  ∧ (∃ c1 c2 p1 p2,
       p1 ∈ workers (constructor c1) ∧ p2 ∈ workers (constructor c2) ∧ p1 ≠ p2)
  ∧ (∃ s1 s2 e1 e2,
       reachable s1 ∧ reachable s2
       ∧ e1 ∈ purgeTimers s1 ∧ e2 ∈ purgeTimers s2 ∧ e1.2 ≠ e2.2).

(** The flag as the constructor reads it. *)
Definition asyncTasksFlag (appConfig : option AppConfig) : bool :=
  match appConfig with
  | Some c =>
      match features c with
      | Some f => default false (asyncTasksEnabled f)
      | None => false
      end
  | None => false
  end.

(** *** Scenarios *)

(** One attempt on the object [r] whose handler rejects. *)
Definition rejectedAttempt (r : nat) (tick resume : Z) : list Event :=
  [WorkerTick tick; AttemptEvent r (HandlerSettles (Rejected "boom"));
   Resume r resume].

(** One attempt on the object [r] that times out; the handler settles
    afterwards. *)
Definition timedOutAttempt (r : nat) (tick resume : Z) : list Event :=
  [WorkerTick tick; AttemptEvent r TimerFires;
   AttemptEvent r (HandlerSettles (Fulfilled "late")); Resume r resume].

Definition fulfilledAttempt (r : nat) (tick resume : Z) : list Event :=
  [WorkerTick tick; AttemptEvent r (HandlerSettles (Fulfilled "ok"));
   Resume r resume].

Definition started : AsyncTaskService := constructor (Some enabledConfig).

(** A task submitted with the default options ([retries = 3]) whose every
    attempt fails, after two attempts and after three. *)
Definition twoFailures : AsyncTaskService :=
  run (CallAddTask "job" 7%nat TaskOptions.empty 1000 "abc"
       :: rejectedAttempt 0 1100 1200 ++ timedOutAttempt 0 6200 36200) started.
Definition threeFailures : AsyncTaskService :=
  run (rejectedAttempt 0 41200 41300) twoFailures.

(** A task submitted with [retries = 1] whose first attempt fails. *)
Definition oneFailure : AsyncTaskService :=
  run (CallAddTask "job" 7%nat (TaskOptions.mk None None (Some 1) None None)
         1000 "abc"
       :: rejectedAttempt 0 1100 1200) started.

(** A registry with a completed, a running and a pending record. *)
Definition mixedRegistry : AsyncTaskService :=
  run (CallAddTask "a" 1%nat TaskOptions.empty 1000 "aaa"
       :: fulfilledAttempt 0 1100 1200
       ++ [CallAddTask "b" 2%nat TaskOptions.empty 1300 "bbb";
           WorkerTick 1400;
           CallAddTask "c" 3%nat TaskOptions.empty 1500 "ccc"]) started.

(** How far the attempts of a record can be, by status. *)
Definition attemptsOk (t : QueuedTask) : Prop :=
  match status t with
  | pending =>
      attempts t = 0 ∨ (0 < attempts t ∧ attempts t < retries (options t))
  | running | completed =>
      attempts t = 1 ∨ (1 < attempts t ∧ attempts t <= retries (options t))
  | failed =>
      (attempts t = 1 ∨ (1 < attempts t ∧ attempts t <= retries (options t)))
      ∧ retries (options t) <= attempts t
  end.

(** ** Further vocabulary *)

(** The attempts recorded on all task objects. *)
Definition totalAttempts (s : AsyncTaskService) : Z :=
  foldr (λ t acc, attempts t + acc) 0 (heap s).

(** A service on which nothing was ever admitted or started. *)
Definition inert (s : AsyncTaskService) : Prop :=
  heap s = [] ∧ tasks s = [] ∧ workers s = [] ∧ awaiting s = []
  ∧ purgeTimers s = [] ∧ handlerCalls s = [] ∧ runningTasks s = 0
  ∧ isEnabled s = false.

(** The instants recorded on a task object agree with the eligibility rules
    under which it was dispatched. *)
Definition timingOk (t : QueuedTask) : Prop :=
  (lastAttempt t = None ↔ attempts t = 0)
  ∧ (∀ l, lastAttempt t = Some l → createdAt t + delay (options t) <= l)
  ∧ (status t ≠ pending →
     ∀ d l, nextRetry t = Some d → lastAttempt t = Some l → d <= l).


(** ** The configuration loader ([getAppConfig]) *)

(** [process.env]. *)
Definition Env := string → option string.

(** [v || d] on a string that may be undefined: the empty string is falsy. *)
Definition orElse (v : option string) (d : string) : string :=
  match v with
  | Some x => if decide (x = "") then d else x
  | None => d
  end.

(** [v !== 'false']. *)
Definition notFalse (v : option string) : bool :=
  negb (bool_decide (v = Some "false")).

(** [process.env.X || (() => { if (env === 'production') throw ...; return d })()] *)
Definition secretOr (v : option string) (env : string) (message d : string)
  : Result string :=
  match v with
  | Some x =>
      if decide (x = "")
      then if decide (env = "production") then Throw message else Return d
      else Return x
  | None => if decide (env = "production") then Throw message else Return d
  end.

(** [getAppConfig], for the fields that the record [AppConfig] keeps.  The
    fields left out are computed by expressions that cannot throw, but for
    the two secrets, whose check is kept.  [Number] is the JavaScript
    conversion of a string that may be undefined, [None] standing for
    [NaN]. *)
Definition getAppConfig (Number : option string → option Z) (penv : Env)
  : Result AppConfig :=
  let env := orElse (penv "APP_ENV") "development" in
  let port :=
    match Number (penv "APP_PORT") with
    | Some n => if decide (n = 0) then 3000 else n
    | None => 3000
    end in
  let prefix := orElse (penv "APP_PREFIX") "api" in
  match secretOr (penv "COOKIE_SECRET") env
          "COOKIE_SECRET is required in production"
          "dev-cookie-secret-change-in-production" with
  | Throw m => Throw m
  | Return _ =>
      match secretOr (penv "JWT_SECRET") env
              "JWT_SECRET is required in production"
              "dev-jwt-secret-change-in-production" with
      | Throw m => Throw m
      | Return _ =>
          Return
            (mkAppConfig port prefix
               (Some
                  (mkFeatures
                     (notFalse (penv "CACHE_ENABLED"))
                     (negb (bool_decide (env = "production"))
                      && notFalse (penv "PERFORMANCE_LOGGING"))
                     (negb (bool_decide (env = "production")))
                     (negb (bool_decide (env = "production"))
                      && notFalse (penv "SWAGGER_ENABLED"))
                     (notFalse (penv "HEALTH_CHECKS_ENABLED"))
                     (Some (notFalse (penv "ASYNC_TASKS_ENABLED"))))))
      end
  end.

(** ** The health controller *)

Record AppInfoFeatures := mkAppInfoFeatures {
  aif_cache : bool;
  aif_asyncTasks : bool;
  aif_performanceLogging : bool
}.

(** The [features] object that [getAppInfo] builds.  With no configuration
    the optional chain [appConfig?.features.x] is undefined; with a
    configuration that has no [features] the property access throws. *)
Definition getAppInfoFeatures (appConfig : option AppConfig)
  : Result AppInfoFeatures :=
  match appConfig with
  | None => Return (mkAppInfoFeatures false false false)
  | Some c =>
      match features c with
      | None => Throw "TypeError: Cannot read properties of undefined"
      | Some f =>
          Return
            (mkAppInfoFeatures (cacheEnabled f)
               (default false (asyncTasksEnabled f))
               (performanceLogging f))
      end
  end.
(** * Properties *)

(** ** The insertion-ordered map *)

Module JsMapFacts.
Import JsMap.
Section Facts.
Context {V : Type}.
Implicit Types (m : JsMap.t V) (k : string) (v : V).

Lemma get_set_eq k v m : get k (set k v m) = Some v.
Proof.
  induction m as [|[k' v'] m IH]; simpl.
  - by rewrite decide_True.
  - destruct (decide (k' = k)); simpl.
    + by rewrite decide_True.
    + by rewrite decide_False.
Qed.


Lemma delete_cons k e m :
  delete k (e :: m) = if decide (e.1 ≠ k) then e :: delete k m else delete k m.
Proof. unfold delete. by rewrite filter_cons. Qed.

Lemma get_delete_eq k m : get k (delete k m) = None.
Proof.
  induction m as [|[k' v'] m IH]; [done|].
  rewrite delete_cons. simpl. destruct (decide (k' ≠ k)); simpl; [|done].
  by rewrite decide_False.
Qed.

Lemma get_delete_ne k k' m : k ≠ k' → get k' (delete k m) = get k' m.
Proof.
  intros Hne. induction m as [|[k0 v0] m IH]; [done|].
  rewrite delete_cons. simpl. destruct (decide (k0 ≠ k)) as [|Heq]; simpl.
  - by rewrite IH.
  - apply dec_stable in Heq. subst. by rewrite decide_False.
Qed.

Lemma get_None k m : get k m = None ↔ k ∉ keys m.
Proof.
  unfold keys. induction m as [|[k' v'] m IH]; simpl.
  - split; [intros _; apply not_elem_of_nil | done].
  - rewrite not_elem_of_cons. destruct (decide (k' = k)) as [Heq|Hne].
    + split; [done | intros [? _]; congruence].
    + rewrite IH. split; [intros ?; split; [congruence | done] | tauto].
Qed.

Lemma get_Some_elem k v m : get k m = Some v → (k, v) ∈ m.
Proof.
  induction m as [|[k' v'] m IH]; simpl; [done|].
  destruct (decide (k' = k)) as [->|].
  - intros [= ->]. apply list_elem_of_here.
  - intros H. apply list_elem_of_further. auto.
Qed.

Lemma elem_get k v m : NoDup (keys m) → (k, v) ∈ m → get k m = Some v.
Proof.
  unfold keys. induction m as [|[k' v'] m IH]; simpl.
  - intros _ H. by apply elem_of_nil in H.
  - rewrite NoDup_cons. intros [Hk Hnd] [Heq|Hin]%elem_of_cons.
    + injection Heq as -> ->. by rewrite decide_True.
    + destruct (decide (k' = k)) as [->|]; [|by apply IH].
      exfalso. apply Hk. apply list_elem_of_fmap. by exists (k, v).
Qed.

Lemma delete_absent k m : k ∉ keys m → delete k m = m.
Proof.
  unfold keys. induction m as [|[k' v'] m IH]; [done|].
  simpl. rewrite not_elem_of_cons. intros [Hne Hk].
  rewrite delete_cons. simpl. rewrite decide_True by done.
  by rewrite IH.
Qed.

(** Deleting a key of a map without duplicate keys removes one entry and
    keeps the others in place. *)
Lemma delete_split k v m :
  NoDup (keys m) → get k m = Some v →
  ∃ l1 l2, m = l1 ++ (k, v) :: l2 ∧ delete k m = l1 ++ l2.
Proof.
  unfold keys. induction m as [|[k' v'] m IH]; simpl; [done|].
  rewrite NoDup_cons. intros [Hk Hnd].
  destruct (decide (k' = k)) as [->|Hne].
  - intros [= ->]. exists [], m. split; [done|].
    rewrite delete_cons. simpl. rewrite decide_False by (intros ?; done).
    by apply delete_absent.
  - intros Hget. destruct (IH Hnd Hget) as (l1 & l2 & -> & Hdel).
    exists ((k', v') :: l1), l2. split; [done|].
    rewrite delete_cons. simpl. rewrite decide_True by done.
    by rewrite Hdel.
Qed.

Lemma keys_delete_sublist k m : sublist (delete k m) m.
Proof. apply sublist_filter. Qed.

Lemma NoDup_keys_delete k m : NoDup (keys m) → NoDup (keys (delete k m)).
Proof.
  unfold keys. intros H. eapply sublist_NoDup; [exact H|].
  apply fmap_sublist, keys_delete_sublist.
Qed.

Lemma NoDup_values_delete k m :
  NoDup (values m) → NoDup (values (delete k m)).
Proof.
  unfold values. intros H. eapply sublist_NoDup; [exact H|].
  apply fmap_sublist, keys_delete_sublist.
Qed.

Lemma elem_of_delete e k m : e ∈ delete k m ↔ e ∈ m ∧ e.1 ≠ k.
Proof. unfold delete. rewrite list_elem_of_filter. tauto. Qed.

Lemma elem_of_set e k v m : e ∈ set k v m → e = (k, v) ∨ e ∈ m.
Proof.
  induction m as [|[k' v'] m IH]; simpl.
  - intros ->%list_elem_of_singleton. by left.
  - destruct (decide (k' = k)) as [->|Hne].
    + intros [->|Hin]%elem_of_cons; [by left|].
      right. by apply list_elem_of_further.
    + intros [->|Hin]%elem_of_cons.
      * right. apply list_elem_of_here.
      * destruct (IH Hin) as [->|?]; [by left|].
        right. by apply list_elem_of_further.
Qed.

Lemma NoDup_keys_set k v m : NoDup (keys m) → NoDup (keys (set k v m)).
Proof.
  unfold keys. induction m as [|[k' v'] m IH]; simpl.
  - intros _. apply NoDup_singleton.
  - rewrite NoDup_cons. intros [Hk Hnd].
    destruct (decide (k' = k)) as [->|Hne]; simpl.
    + by apply NoDup_cons.
    + apply NoDup_cons. split; [|by apply IH].
      intros ([k0 v0] & Hk0 & Hin)%list_elem_of_fmap. simpl in Hk0. subst k0.
      apply elem_of_set in Hin as [[= -> ->]|Hin]; [done|].
      apply Hk, list_elem_of_fmap. by exists (k', v0).
Qed.

Lemma NoDup_values_set k v m :
  NoDup (values m) → v ∉ values m → NoDup (values (set k v m)).
Proof.
  unfold values. induction m as [|[k' v'] m IH]; simpl.
  - intros _ _. apply NoDup_singleton.
  - rewrite NoDup_cons, not_elem_of_cons. intros [Hv' Hnd] [Hne Hv].
    destruct (decide (k' = k)) as [->|Hk]; simpl.
    + by apply NoDup_cons.
    + apply NoDup_cons. split; [|by apply IH].
      intros ([k0 v0] & Hv0 & Hin)%list_elem_of_fmap. simpl in Hv0. subst v0.
      apply elem_of_set in Hin as [[= -> ->]|Hin]; [done|].
      apply Hv', list_elem_of_fmap. by exists (k0, v').
Qed.
End Facts.
End JsMapFacts.

(** ** The stable sort *)

Section ArraySortFacts.
Context {A : Type} (compare : A → A → Z).
Hypothesis compare_total : ∀ a b, compare a b <= 0 ∨ compare b a <= 0.
Hypothesis compare_trans :
  ∀ a b c, compare a b <= 0 → compare b c <= 0 → compare a c <= 0.

Lemma head_sort_insert x l :
  head (sort_insert compare x l) =
    match l with
    | [] => Some x
    | y :: _ => if compare x y <=? 0 then Some x else Some y
    end.
Proof. destruct l as [|y l]; simpl; [done|]. by destruct (compare x y <=? 0). Qed.

Lemma array_sort_nil l : array_sort compare l = [] → l = [].
Proof.
  destruct l as [|x l]; [done|]. simpl.
  destruct (array_sort compare l) as [|y l']; simpl; [done|].
  by destruct (compare x y <=? 0).
Qed.

(** The first element of the sorted array is the first of the elements
    that no other element precedes. *)
Lemma head_array_sort l t :
  head (array_sort compare l) = Some t →
  ∃ l1 l2, l = l1 ++ t :: l2 ∧
    (∀ c, c ∈ l1 → 0 < compare c t) ∧
    (∀ c, c ∈ l2 → compare t c <= 0).
Proof.
  revert t. induction l as [|x l IH]; intros t; simpl; [done|].
  rewrite head_sort_insert.
  destruct (array_sort compare l) as [|h sorted] eqn:Hs.
  - intros [= <-]. apply array_sort_nil in Hs as ->.
    exists [], []. split_and!; [done| |]; intros c Hc; by apply elem_of_nil in Hc.
  - destruct (IH h eq_refl) as (l1 & l2 & -> & Hl1 & Hl2).
    destruct (Z.leb_spec (compare x h) 0) as [Hle|Hgt]; intros [= <-].
    + exists [], (l1 ++ h :: l2). split_and!; [done| |].
      * intros c Hc. by apply elem_of_nil in Hc.
      * intros c [Hc|[->|Hc]%elem_of_cons]%elem_of_app.
        -- apply compare_trans with h; [done|].
           specialize (Hl1 c Hc). destruct (compare_total h c); lia.
        -- done.
        -- apply compare_trans with h; auto.
    + exists (x :: l1), l2. split_and!; [done| |done].
      intros c [->|Hc]%elem_of_cons; auto.
Qed.
End ArraySortFacts.

(** ** Selection (getNextTask) *)

Lemma priorityOrder_inj p q : priorityOrder p = priorityOrder q → p = q.
Proof. by destruct p, q. Qed.

Lemma compareTasks_le a b :
  compareTasks a b <= 0 ↔ ¬ outranks b a.
Proof.
  unfold compareTasks, outranks.
  destruct (priority (options a)), (priority (options b)); simpl;
    (split;
     [ intros Hle [Hlt|[Hp Hc]]; first [lia | congruence]
     | intros Hn;
       match goal with
       | |- ?x <= 0 =>
           destruct (Z.le_gt_cases x 0) as [|Hgt]; [done|]; exfalso; apply Hn;
           first [left; lia | right; split; [reflexivity | lia]]
       end ]).
Qed.

Lemma compareTasks_total a b : compareTasks a b <= 0 ∨ compareTasks b a <= 0.
Proof.
  unfold compareTasks.
  destruct (priority (options a)), (priority (options b)); simpl; lia.
Qed.

Lemma compareTasks_trans a b c :
  compareTasks a b <= 0 → compareTasks b c <= 0 → compareTasks a c <= 0.
Proof.
  unfold compareTasks.
  destruct (priority (options a)), (priority (options b)),
    (priority (options c)); simpl; lia.
Qed.

Lemma available_spec now t :
  available now t = true ↔
    status t = pending
    ∧ createdAt t + delay (options t) <= now
    ∧ (∀ d, nextRetry t = Some d → d <= now).
Proof.
  unfold available. case_bool_decide as Hst; simpl.
  - destruct (nextRetry t) as [d|].
    + destruct (Z.ltb_spec now d).
      * split; [done|]. intros (_ & _ & Hd). specialize (Hd d eq_refl). lia.
      * rewrite Z.leb_le. split; [|tauto].
        intros ?. split_and!; [done..|]. intros ? [= <-]. lia.
    + rewrite Z.leb_le. split; [|tauto]. intros ?. by split_and!.
  - split; [done | tauto].
Qed.


Lemma getNextTask_head now s :
  getNextTask now s =
    head (array_sort (λ a b, compareTasks a.2 b.2)
            (filter (λ x, available now x.2) (taskRefs s))).
Proof. unfold getNextTask. by destruct (filter _ (taskRefs s)). Qed.

Lemma getNextTask_Some now s best :
  getNextTask now s = Some best →
  ∃ before after,
    filter (λ x, available now x.2) (taskRefs s) = before ++ best :: after
    ∧ (∀ c, c ∈ before → outranks best.2 c.2)
    ∧ (∀ c, c ∈ after → ¬ outranks c.2 best.2).
Proof.
  rewrite getNextTask_head. intros Hhd.
  apply head_array_sort in Hhd as (l1 & l2 & Heq & Hl1 & Hl2).
  - exists l1, l2. split_and!; [done| |].
    + intros c Hc. specialize (Hl1 c Hc).
      destruct (decide (outranks best.2 c.2)) as [|Hn]; [done|].
      apply compareTasks_le in Hn. lia.
    + intros c Hc. by apply compareTasks_le, Hl2.
  - intros a b. apply compareTasks_total.
  - intros a b c. apply compareTasks_trans.
Qed.


Lemma getNextTask_elem now s r t :
  getNextTask now s = Some (r, t) →
  (r, t) ∈ taskRefs s ∧ status t = pending.
Proof.
  intros (l1 & l2 & Heq & _)%getNextTask_Some.
  assert (Hin : (r, t) ∈ filter (λ x, available now x.2) (taskRefs s)).
  { rewrite Heq. apply elem_of_app. right. apply list_elem_of_here. }
  apply list_elem_of_filter in Hin as [Hav Hin]. split; [done|].
  apply Is_true_true, available_spec in Hav. tauto.
Qed.


(** ** Reachable states *)

Ltac unfold_with :=
  unfold with_heap, with_tasks, with_workers, with_isShuttingDown,
    with_runningTasks, with_awaiting, with_purgeTimers, with_handlerCalls in *;
  simpl in *.

Lemma elem_taskRefs s r t :
  (r, t) ∈ taskRefs s ↔ r ∈ JsMap.values (tasks s) ∧ heap s !! r = Some t.
Proof.
  unfold taskRefs, JsMap.values. rewrite list_elem_of_omap, list_elem_of_fmap.
  split.
  - intros ([k r'] & Hin & Hf). simpl in Hf.
    destruct (heap s !! r') as [t'|] eqn:Hl; simplify_eq/=.
    split; [by exists (k, r) | done].
  - intros [([k r'] & -> & Hin) Hl]. exists (k, r'). split; [done|].
    simpl in *. by rewrite Hl.
Qed.

Lemma taskRefs_sublist s : (taskRefs s).*1 `sublist_of` JsMap.values (tasks s).
Proof.
  unfold taskRefs, JsMap.values. induction (tasks s) as [|[k r] m IH]; simpl.
  - constructor.
  - destruct (heap s !! r); simpl; by constructor.
Qed.

Lemma foldl_delete_sublist {V} (ks : list (string * V)) (l : list (string * QueuedTask)) :
  foldl (λ m e, JsMap.delete e.1 m) ks l `sublist_of` ks.
Proof.
  revert ks. induction l as [|e l IH]; intros ks; simpl; [done|].
  etrans; [apply IH|]. apply JsMapFacts.keys_delete_sublist.
Qed.

Lemma take_activation_Some r l a rest :
  take_activation r l = Some (a, rest) → act_task a = r ∧ l ≡ₚ a :: rest.
Proof.
  revert a rest. induction l as [|b l IH]; intros a rest; simpl; [done|].
  destruct (decide (act_task b = r)) as [Hb|Hb].
  - intros [= -> ->]. done.
  - destruct (take_activation r l) as [[c l'']|]; [|done].
    intros [= -> <-]. destruct (IH _ _ eq_refl) as [Ha Hp].
    split; [done|]. rewrite Hp. apply Permutation_swap.
Qed.

Lemma invariant_init cfg : invariant (constructor cfg).
Proof.
  unfold constructor.
  destruct (match cfg with Some c => _ | None => _ end);
    (split; simpl; try done; try lia; try apply NoDup_nil_2;
     try (intros ? H; by apply elem_of_nil in H)).
Qed.

(** Removing entries from the registry keeps the invariant. *)
Lemma invariant_with_tasks s m :
  m `sublist_of` tasks s → invariant s → invariant (with_tasks m s).
Proof.
  intros Hsub [H1 H2 H3 H4 H5 H6 H7 H8 H9]. split; unfold_with; try done.
  - eapply sublist_NoDup; [exact H7|]. by apply fmap_sublist.
  - eapply sublist_NoDup; [exact H8|]. by apply fmap_sublist.
  - intros r Hr. apply H9. unfold JsMap.values in *.
    eapply sublist_subseteq; [|exact Hr]. by apply fmap_sublist.
Qed.

Lemma invariant_addTask name h o now rnd s taskId s' :
  invariant s → addTask name h o now rnd s = Return (taskId, s') →
  invariant s'.
Proof.
  intros [H1 H2 H3 H4 H5 H6 H7 H8 H9]. unfold addTask.
  destruct (isEnabled s); simpl; [|done]. intros [= <- <-].
  split; unfold_with; try done.
  - intros r Hr. destruct (H5 r Hr) as (t & Hl & Hst). exists t.
    split; [|done]. rewrite lookup_app_l; [done|]. by eapply lookup_lt_Some.
  - intros r t Hl Hst. apply lookup_app_Some in Hl as [Hl|[_ Hl]].
    + eauto.
    + destruct (r - length (heap s))%nat; simpl in Hl; [|done].
      by simplify_eq/=.
  - by apply JsMapFacts.NoDup_keys_set.
  - apply JsMapFacts.NoDup_values_set; [done|].
    intros Hin. apply H9 in Hin. lia.
  - intros r ([k r'] & -> & Hin)%list_elem_of_fmap. rewrite length_app. simpl.
    apply JsMapFacts.elem_of_set in Hin as [[= _ ->]|Hin]; [lia|].
    assert (r' ∈ JsMap.values (tasks s)).
    { apply list_elem_of_fmap. by exists (k, r'). }
    apply H9 in H. lia.
Qed.

Lemma processNextTask_cases now s :
  (processNextTask now s = s
   ∧ (maxConcurrentTasks s <= runningTasks s ∨ getNextTask now s = None))
  ∨ (∃ r t,
       getNextTask now s = Some (r, t)
       ∧ runningTasks s < maxConcurrentTasks s
       ∧ processNextTask now s =
           with_awaiting
             (awaiting s ++ [mkActivation r (mkExecution (timeout (options t)) Armed None)])
             (with_handlerCalls (handlerCalls s ++ [handler t])
                (with_heap
                   (<[r := set_lastAttempt now
                             (set_attempts (attempts t + 1) (set_status running t))]>
                      (heap s))
                   (with_runningTasks (runningTasks s + 1) s)))).
Proof.
  unfold processNextTask.
  destruct (Z.leb_spec (maxConcurrentTasks s) (runningTasks s)); [left; auto|].
  destruct (getNextTask now s) as [[r t]|] eqn:Hnext; [|left; auto].
  right. exists r, t. by split_and!.
Qed.

Lemma invariant_processNextTask now s :
  invariant s → invariant (processNextTask now s).
Proof.
  intros Hinv.
  destruct (processNextTask_cases now s) as [[-> _]|(r & t & Hnext & Hlt & ->)];
    [done|].
  destruct Hinv as [H1 H2 H3 H4 H5 H6 H7 H8 H9].
  apply getNextTask_elem in Hnext as [[Hr Hl]%elem_taskRefs Hst].
  assert (Hlen : (r < length (heap s))%nat) by eauto using lookup_lt_Some.
  assert (Hfresh : r ∉ awaitingRefs s).
  { intros Hin. destruct (H5 r Hin) as (t' & Hl' & Hst'). congruence. }
  split; unfold_with; try done.
  - rewrite length_app. simpl. lia.
  - lia.
  - unfold awaitingRefs in *. simpl. rewrite fmap_app. simpl.
    apply NoDup_app. split_and!; [done| |apply NoDup_singleton].
    intros x Hx ->%list_elem_of_singleton. done.
  - unfold awaitingRefs in *. simpl. rewrite fmap_app. simpl.
    intros x [Hx| ->%list_elem_of_singleton]%elem_of_app.
    + destruct (H5 x Hx) as (t' & Hl' & Hst'). exists t'. split; [|done].
      rewrite list_lookup_insert_ne; [done|]. intros ->. done.
    + eexists. rewrite list_lookup_insert_eq by done. done.
  - unfold awaitingRefs in *. simpl. rewrite fmap_app. simpl.
    intros x t' Hl' Hst'. apply elem_of_app.
    destruct (decide (r = x)) as [->|Hne].
    + right. apply list_elem_of_here.
    + left. rewrite list_lookup_insert_ne in Hl' by done. eauto.
  - intros x Hx. rewrite length_insert. auto.
Qed.

Lemma awaitingRefs_deliver r ev (l : list Activation) :
  act_task <$> (deliver r ev <$> l) = act_task <$> l.
Proof.
  rewrite <-list_fmap_compose. apply list_fmap_ext. intros i a _. simpl.
  unfold deliver. by destruct (decide (act_task a = r)).
Qed.

Lemma invariant_deliver r ev s :
  invariant s → invariant (with_awaiting (deliver r ev <$> awaiting s) s).
Proof.
  intros [H1 H2 H3 H4 H5 H6 H7 H8 H9].
  split; unfold awaitingRefs in *; unfold_with;
    rewrite ?awaitingRefs_deliver, ?length_fmap; done.
Qed.

(** The outcome handling changes the object of the attempt and nothing else
    in the store. *)
Lemma handleOutcome_heap r o now s t :
  heap s !! r = Some t →
  ∃ t', heap (handleOutcome r o now s) = <[r := t']> (heap s)
    ∧ tasks (handleOutcome r o now s) = tasks s
    ∧ awaiting (handleOutcome r o now s) = awaiting s
    ∧ runningTasks (handleOutcome r o now s) = runningTasks s
    ∧ maxConcurrentTasks (handleOutcome r o now s) = maxConcurrentTasks s
    ∧ defaultRetries (handleOutcome r o now s) = defaultRetries s
    ∧ defaultRetryDelay (handleOutcome r o now s) = defaultRetryDelay s
    ∧ defaultTimeout (handleOutcome r o now s) = defaultTimeout s
    ∧ match o with
      | Fulfilled _ => t' = set_status completed t
      | Rejected _ =>
          if attempts t <? retries (options t)
          then t' = set_nextRetry (now + retryDelay (options t))
                      (set_status pending t)
          else t' = set_status failed t
      end.
Proof.
  intros Hl. unfold handleOutcome. rewrite Hl. destruct o as [v|e].
  - eexists. by split_and!.
  - destruct (attempts t <? retries (options t)) eqn:Hlt; eexists;
      split_and!; try done; by rewrite ?Hlt.
Qed.

Lemma handleOutcome_status r o now s t t' :
  heap s !! r = Some t →
  heap (handleOutcome r o now s) !! r = Some t' →
  status t' = completed ∨ status t' = pending ∨ status t' = failed.
Proof.
  intros Hl Hl'.
  destruct (handleOutcome_heap r o now s t Hl) as (t0 & Hh & _ & _ & _ & _ & _ & _ & _ & Ho).
  rewrite Hh, list_lookup_insert_eq in Hl' by eauto using lookup_lt_Some.
  injection Hl' as <-. destruct o.
  - subst. auto.
  - destruct (attempts t <? retries (options t)); subst; auto.
Qed.

Lemma invariant_resume r now s a rest o :
  invariant s → take_activation r (awaiting s) = Some (a, rest) →
  invariant (processNextTask_resume r o now (with_awaiting rest s)).
Proof.
  intros [H1 H2 H3 H4 H5 H6 H7 H8 H9] [Ha Hperm]%take_activation_Some.
  assert (Hrefs : awaitingRefs s ≡ₚ r :: (act_task <$> rest)).
  { unfold awaitingRefs. rewrite Hperm. simpl. by rewrite Ha. }
  rewrite Hrefs in H4. apply NoDup_cons in H4 as [Hr Hnd].
  destruct (H5 r) as (t & Hl & Hst); [rewrite Hrefs; apply list_elem_of_here|].
  set (s0 := with_awaiting rest s).
  assert (Hl0 : heap s0 !! r = Some t) by done.
  destruct (handleOutcome_heap r o now s0 t Hl0)
    as (t' & Hh & Ht & Haw & Hrun & Hmax & Hd1 & Hd2 & Hd3 & Ho).
  assert (Hst' : status t' ≠ running).
  { destruct o; [by subst|].
    destruct (attempts t <? retries (options t)); by subst. }
  assert (Hlen : (r < length (heap s))%nat) by eauto using lookup_lt_Some.
  unfold processNextTask_resume.
  split; unfold awaitingRefs; unfold_with;
    rewrite ?Hh, ?Ht, ?Haw, ?Hrun, ?Hmax, ?Hd1, ?Hd2, ?Hd3; simpl; try done.
  - rewrite H1, Hperm. simpl. lia.
  - lia.
  - intros x Hx. destruct (H5 x) as (tx & Hlx & Hstx).
    { rewrite Hrefs. by apply list_elem_of_further. }
    exists tx. split; [|done]. rewrite list_lookup_insert_ne; [done|].
    intros ->. done.
  - intros x tx Hlx Hstx. destruct (decide (r = x)) as [->|Hne].
    + rewrite list_lookup_insert_eq in Hlx by done. congruence.
    + rewrite list_lookup_insert_ne in Hlx by done.
      specialize (H6 x tx Hlx Hstx). rewrite Hrefs in H6.
      apply elem_of_cons in H6 as [->|]; done.
  - intros x Hx. rewrite length_insert. auto.
Qed.

Lemma invariant_dispatch ev s : invariant s → invariant (dispatch ev s).
Proof.
  intros Hinv. destruct ev as [name h o now rnd|taskId| |now|r ev|r now|taskId|];
    simpl.
  - destruct (addTask name h o now rnd s) as [[taskId s']|] eqn:Hadd; [|done].
    by eapply invariant_addTask.
  - unfold cancelTask. destruct (lookupTask s taskId); [|done].
    destruct (_ || _); [done|]. simpl.
    apply invariant_with_tasks; [apply JsMapFacts.keys_delete_sublist | done].
  - apply invariant_with_tasks; [apply foldl_delete_sublist | done].
  - destruct (workers s); [done|]. destruct (isShuttingDown s); [done|].
    by apply invariant_processNextTask.
  - by apply invariant_deliver.
  - destruct (take_activation r (awaiting s)) as [[a rest]|] eqn:Htake; [|done].
    destruct (promise (act_exec a)); [|done].
    by eapply invariant_resume.
  - destruct (take_timer taskId (purgeTimers s)); [|done].
    apply (invariant_with_tasks (with_purgeTimers l s));
      [apply JsMapFacts.keys_delete_sublist|].
    destruct Hinv. by split.
  - destruct Hinv. by split.
Qed.

Lemma reachable_run evs s : reachable s → reachable (run evs s).
Proof.
  revert s. induction evs as [|ev evs IH]; intros s Hs; [done|].
  apply IH. by apply reachable_step.
Qed.

Lemma reachable_invariant s : reachable s → invariant s.
Proof.
  induction 1; [apply invariant_init | by apply invariant_dispatch].
Qed.

(** ** Bounded concurrency *)

Lemma filter_fmap {A B} (f : A → B) (P : B → Prop) `{∀ y, Decision (P y)}
    (l : list A) :
  filter P (f <$> l) = f <$> filter (λ x, P (f x)) l.
Proof.
  induction l as [|x l IH]; [done|]. rewrite fmap_cons, !filter_cons.
  destruct (decide (P (f x))); by rewrite IH.
Qed.

Lemma count_taskValues (P : QueuedTask → Prop) `{∀ t, Decision (P t)} s :
  count P (taskValues s) =
    Z.of_nat (length (filter (λ x, P x.2) (taskRefs s))).
Proof. unfold count, taskValues. by rewrite filter_fmap, length_fmap. Qed.

Lemma running_records_awaiting s :
  invariant s →
  (length (filter (λ x, status x.2 = running) (taskRefs s))
   ≤ length (awaiting s))%nat.
Proof.
  intros Hinv.
  set (l := filter (λ x, status x.2 = running) (taskRefs s)).
  rewrite <-(length_fmap fst l), <-(length_fmap act_task (awaiting s)).
  apply submseteq_length, NoDup_submseteq.
  - eapply sublist_NoDup; [apply (inv_refs s Hinv)|].
    etrans; [|apply taskRefs_sublist]. apply fmap_sublist, sublist_filter.
  - intros r ([r' t] & -> & [Hst Hin]%list_elem_of_filter)%list_elem_of_fmap.
    simpl in *. apply elem_taskRefs in Hin as [_ Hl].
    by apply (inv_running_awaiting s Hinv r' t).
Qed.

(** C4. In every reachable state the number of records with status running
    is at most the in-flight counter, which is at most the maximum
    concurrency; every running record of the registry is held by a suspended
    activation, and the counter is the number of those activations.  The
    check of the counter and the claim of a task are one step: either the
    step changes nothing (the counter is at the maximum, or no task is
    eligible), or the counter was below the maximum and the same step marks
    the selected task running, increments its attempts, stamps its last
    attempt, increments the counter and starts the execution. *)
Theorem running_within_concurrency (s : AsyncTaskService) :
  reachable s →
  qs_running (getQueueStats s) <= qs_runningTasks (getQueueStats s)
  ∧ qs_runningTasks (getQueueStats s) <= qs_maxConcurrentTasks (getQueueStats s)
  ∧ qs_running (getQueueStats s) <= maxConcurrentTasks s
  ∧ runningTasks s = Z.of_nat (length (awaiting s))
  ∧ (∀ r t, (r, t) ∈ taskRefs s → status t = running → r ∈ awaitingRefs s)
  ∧ ∀ now,
      (processNextTask now s = s
       ∧ (maxConcurrentTasks s <= runningTasks s ∨ getNextTask now s = None))
      ∨ (∃ r t t',
           getNextTask now s = Some (r, t)
           ∧ runningTasks s < maxConcurrentTasks s
           ∧ status t = pending
           ∧ heap (processNextTask now s) !! r = Some t'
           ∧ status t' = running
           ∧ attempts t' = attempts t + 1
           ∧ lastAttempt t' = Some now
           ∧ runningTasks (processNextTask now s) = runningTasks s + 1
           ∧ awaiting (processNextTask now s) =
               awaiting s ++ [mkActivation r (mkExecution (timeout (options t)) Armed None)]
           ∧ tasks (processNextTask now s) = tasks s
           ∧ ∀ r', r' ≠ r → heap (processNextTask now s) !! r' = heap s !! r').
Proof.
  intros Hinv%reachable_invariant.
  pose proof (running_records_awaiting s Hinv) as Hle.
  pose proof (inv_counter s Hinv) as Hc.
  pose proof (inv_bound s Hinv) as Hb.
  simpl. rewrite count_taskValues. split_and!; try lia.
  - intros r t [_ Hl]%elem_taskRefs Hst. by apply (inv_running_awaiting s Hinv r t).
  - intros now.
    destruct (processNextTask_cases now s) as [?|(r & t & Hnext & Hlt & ->)];
      [by left|].
    right. destruct (getNextTask_elem _ _ _ _ Hnext) as [[_ Hl]%elem_taskRefs Hst].
    eexists r, t, _. unfold_with. split_and!; try done.
    + rewrite list_lookup_insert_eq; [done|]. by eapply lookup_lt_Some.
    + done.
    + done.
    + done.
    + intros r' Hne. by rewrite list_lookup_insert_ne.
Qed.

Lemma running_within_concurrency_witness :
  let s := run [CallAddTask "job" 7%nat TaskOptions.empty 1000 "abc";
                WorkerTick 1100] (constructor (Some enabledConfig)) in
  reachable s ∧ qs_running (getQueueStats s) <= maxConcurrentTasks s.
Proof.
  intros s.
  assert (Hr : reachable s) by apply reachable_run, reachable_init.
  split; [exact Hr|].
  exact (proj1 (proj2 (proj2 (running_within_concurrency s Hr)))).
Defined.

(** ** Status transitions *)

Lemma handleOutcome_length r o now s :
  length (heap (handleOutcome r o now s)) = length (heap s).
Proof.
  unfold handleOutcome. destruct (heap s !! r) as [t|]; [|done].
  destruct o; simpl; [by rewrite length_insert|].
  destruct (_ <? _); simpl; by rewrite length_insert.
Qed.

Lemma dispatch_WorkerTick now s :
  dispatch (WorkerTick now) s = s
  ∨ dispatch (WorkerTick now) s = processNextTask now s.
Proof.
  simpl. destruct (workers s); [by left|].
  destruct (isShuttingDown s); [by left | by right].
Qed.

(** No object leaves the store. *)
Lemma dispatch_heap_length ev s :
  (length (heap s) ≤ length (heap (dispatch ev s)))%nat.
Proof.
  destruct ev as [name h o now rnd|taskId| |now|r0 ev|r0 now|taskId|];
    try (simpl; lia).
  - simpl. unfold addTask. destruct (isEnabled s); simpl; [|lia].
    rewrite length_app. lia.
  - simpl. unfold cancelTask. destruct (lookupTask s taskId); [|done].
    by destruct (_ || _).
  - destruct (dispatch_WorkerTick now s) as [-> | ->]; [lia|].
    destruct (processNextTask_cases now s) as [[-> _]|(r & t & _ & _ & ->)];
      [lia|]. simpl. by rewrite length_insert.
  - simpl. destruct (take_activation r0 (awaiting s)) as [[a rest]|]; [|lia].
    destruct (promise (act_exec a)); [|lia].
    unfold processNextTask_resume. simpl. by rewrite handleOutcome_length.
  - simpl. by destruct (take_timer taskId (purgeTimers s)).
Qed.

(** What one event does to one object of the store: nothing, or the object
    is new (pending, no attempt), or a worker tick claims it, or the
    continuation of its attempt records the outcome. *)
Lemma dispatch_object s ev r t' :
  invariant s → heap (dispatch ev s) !! r = Some t' →
  heap s !! r = Some t'
  ∨ (heap s !! r = None ∧ status t' = pending ∧ attempts t' = 0)
  ∨ (∃ t now,
       ev = WorkerTick now ∧ heap s !! r = Some t ∧ status t = pending
       ∧ t' = set_lastAttempt now
                (set_attempts (attempts t + 1) (set_status running t)))
  ∨ (∃ t now,
       ev = Resume r now ∧ heap s !! r = Some t ∧ status t = running
       ∧ (t' = set_status completed t
          ∨ (attempts t < retries (options t)
             ∧ t' = set_nextRetry (now + retryDelay (options t))
                      (set_status pending t))
          ∨ (retries (options t) <= attempts t ∧ t' = set_status failed t))).
Proof.
  intros Hinv.
  destruct ev as [name h o now rnd|taskId| |now|r0 ev|r0 now|taskId|].
  - simpl. unfold addTask. destruct (isEnabled s); simpl; [|by left].
    intros [Hl|[Hlen Hl]]%lookup_app_Some; [by left|]. right; left.
    destruct (r - length (heap s))%nat; simpl in Hl; [|done].
    simplify_eq/=. split_and!; try done. by apply lookup_ge_None.
  - simpl. unfold cancelTask. destruct (lookupTask s taskId); [|by left].
    destruct (_ || _); by left.
  - by left.
  - destruct (dispatch_WorkerTick now s) as [-> | ->]; [by left|].
    destruct (processNextTask_cases now s)
      as [[-> _]|(r1 & t1 & Hnext & Hlt & ->)]; [by left|].
    apply getNextTask_elem in Hnext as [[_ Hl1]%elem_taskRefs Hst1].
    unfold_with. destruct (decide (r1 = r)) as [->|Hne].
    + rewrite list_lookup_insert_eq by eauto using lookup_lt_Some.
      intros [= <-]. right; right; left. by exists t1, now.
    + rewrite list_lookup_insert_ne by done. by left.
  - by left.
  - simpl.
    destruct (take_activation r0 (awaiting s)) as [[a rest]|] eqn:Htake;
      [|by left].
    destruct (promise (act_exec a)) as [o|]; [|by left].
    apply take_activation_Some in Htake as [Ha Hperm].
    destruct (inv_awaiting_running s Hinv r0) as (t0 & Hl0 & Hst0).
    { unfold awaitingRefs. rewrite Hperm, fmap_cons, Ha. apply list_elem_of_here. }
    assert (Hl0' : heap (with_awaiting rest s) !! r0 = Some t0) by done.
    destruct (handleOutcome_heap r0 o now _ t0 Hl0')
      as (t1 & Hh & _ & _ & _ & _ & _ & _ & _ & Ho).
    unfold processNextTask_resume. unfold_with. rewrite Hh.
    destruct (decide (r0 = r)) as [->|Hne].
    + rewrite list_lookup_insert_eq by eauto using lookup_lt_Some.
      intros [= <-]. right; right; right. exists t0, now.
      split_and!; try done. destruct o; [by left|].
      destruct (Z.ltb_spec (attempts t0) (retries (options t0)));
        [right; left | right; right]; done.
    + rewrite list_lookup_insert_ne by done. by left.
  - simpl. destruct (take_timer taskId (purgeTimers s)); by left.
  - by left.
Qed.


(** The attempts of every record stay within what its status allows. *)
Lemma reachable_attempts s :
  reachable s → ∀ r t, heap s !! r = Some t → attemptsOk t.
Proof.
  induction 1 as [cfg|s ev Hs IH]; intros r t' Hl'.
  - unfold constructor in Hl'.
    by destruct (match cfg with Some c => _ | None => _ end).
  - destruct (dispatch_object s ev r t' (reachable_invariant s Hs) Hl')
      as [Hsame|[(_ & Hp & Ha)|[(t0 & now & _ & Hl0 & Hst & ->)
                               |(t0 & now & _ & Hl0 & Hst & Hout)]]].
    + eauto.
    + unfold attemptsOk. rewrite Hp. by left.
    + specialize (IH r t0 Hl0). unfold attemptsOk in *. rewrite Hst in IH.
      simpl. lia.
    + specialize (IH r t0 Hl0). unfold attemptsOk in *. rewrite Hst in IH.
      destruct Hout as [-> |[[? ->]|[? ->]]]; simpl; lia.
Qed.

(** ** The execution wrapper *)



Lemma handleOutcome_handlerCalls r o now s :
  handlerCalls (handleOutcome r o now s) = handlerCalls s.
Proof.
  unfold handleOutcome. destruct (heap s !! r) as [t|]; [|done].
  destruct o; [done|]. by destruct (_ <? _).
Qed.


(** ** Admission (addTask) *)

Lemma set_absent {V} k (v : V) m :
  JsMap.get k m = None → JsMap.set k v m = m ++ [(k, v)].
Proof.
  induction m as [|[k' v'] m IH]; simpl; [done|].
  destruct (decide (k' = k)); [done|]. intros H. by rewrite IH.
Qed.



(** ** Bulk purge (clearCompletedTasks) *)

Lemma foldl_delete_filter {V B} (m : list (string * V)) (l : list (string * B)) :
  foldl (λ m e, JsMap.delete e.1 m) m l = filter (λ e, e.1 ∉ l.*1) m.
Proof.
  revert m. induction l as [|[k b] l IH]; intros m; simpl.
  - induction m as [|e m IHm]; [done|].
    rewrite filter_cons_True by apply not_elem_of_nil. by rewrite <-IHm.
  - rewrite IH. unfold JsMap.delete. rewrite list_filter_filter.
    apply list_filter_iff. intros e. rewrite not_elem_of_cons. tauto.
Qed.

Lemma filter_ext_elem {A} (P Q : A → Prop) `{∀ x, Decision (P x)}
    `{∀ x, Decision (Q x)} (l : list A) :
  (∀ x, x ∈ l → P x ↔ Q x) → filter P l = filter Q l.
Proof.
  induction l as [|x l IH]; intros Hext; [done|].
  rewrite !filter_cons.
  assert (Hx : P x ↔ Q x) by (apply Hext, list_elem_of_here).
  rewrite IH by (intros y Hy; by apply Hext, list_elem_of_further).
  destruct (decide (P x)), (decide (Q x)); tauto.
Qed.

Lemma taskEntries_elem s k t :
  (k, t) ∈ taskEntries s ↔ ∃ r, (k, r) ∈ tasks s ∧ heap s !! r = Some t.
Proof.
  unfold taskEntries. rewrite list_elem_of_omap. split.
  - intros ([k' r] & Hin & Hf). simpl in Hf.
    destruct (heap s !! r) eqn:Hl; simplify_eq/=. eauto.
  - intros (r & Hin & Hl). exists (k, r). split; [done|]. simpl. by rewrite Hl.
Qed.

Lemma taskEntries_values s : (taskEntries s).*2 = taskValues s.
Proof.
  unfold taskEntries, taskValues, taskRefs.
  induction (tasks s) as [|[k r] m IH]; [done|]. simpl.
  destruct (heap s !! r); simpl; [f_equal|]; apply IH.
Qed.

(** The registry after the purge: the entries whose object is not finished,
    in their order. *)
Lemma clearCompletedTasks_tasks s :
  NoDup (JsMap.keys (tasks s)) →
  tasks (clearCompletedTasks s).2 =
    filter (λ e, ¬ finishedRef s e.2) (tasks s).
Proof.
  intros Hnd. unfold clearCompletedTasks. simpl.
  rewrite foldl_delete_filter. apply filter_ext_elem. intros [k r] Hin. simpl.
  unfold finishedRef. split.
  - intros Hk Hfin. apply Hk. destruct (heap s !! r) as [t|] eqn:Hl; [|done].
    apply list_elem_of_fmap. exists (k, t). split; [done|].
    apply list_elem_of_filter. split; [done|]. apply taskEntries_elem. eauto.
  - intros Hfin ([k' t] & Heq & [Hft Hent]%list_elem_of_filter)%list_elem_of_fmap.
    simpl in *. subst k'. apply taskEntries_elem in Hent as (r' & Hin' & Hl').
    assert (r' = r) as ->.
    { apply (JsMapFacts.elem_get _ _ _ Hnd) in Hin, Hin'. congruence. }
    apply Hfin. by rewrite Hl'.
Qed.

Lemma omap_cons {A B} (f : A → option B) x l :
  omap f (x :: l) =
    match f x with
    | Some y => y :: omap f l
    | None => omap f l
    end.
Proof. done. Qed.

Lemma taskRefs_filter s (m : list (string * nat)) :
  omap (λ e, (e.2,.) <$> heap s !! e.2) (filter (λ e, ¬ finishedRef s e.2) m)
  = filter (λ x, ¬ finished x.2) (omap (λ e, (e.2,.) <$> heap s !! e.2) m).
Proof.
  induction m as [|[k r] m IH]; [done|]. rewrite filter_cons.
  destruct (decide (¬ finishedRef s (k, r).2)) as [Hf|Hf];
    rewrite !omap_cons, ?IH; simpl in Hf |- *;
    unfold finishedRef in Hf; destruct (heap s !! r) as [t|] eqn:Hl; simpl.
  - by rewrite filter_cons_True.
  - done.
  - rewrite filter_cons_False; [done|]. simpl. tauto.
  - exfalso. tauto.
Qed.

Lemma count_cons (P : QueuedTask → Prop) `{∀ t, Decision (P t)} t l :
  count P (t :: l) = count P l + (if decide (P t) then 1 else 0).
Proof.
  unfold count. rewrite filter_cons. destruct (decide (P t)); simpl; lia.
Qed.

Lemma count_nil (P : QueuedTask → Prop) `{∀ t, Decision (P t)} :
  count P [] = 0.
Proof. done. Qed.

Lemma count_app (P : QueuedTask → Prop) `{∀ t, Decision (P t)} l1 l2 :
  count P (l1 ++ l2) = count P l1 + count P l2.
Proof. unfold count. rewrite filter_app, length_app. lia. Qed.

(** Counting under the filter that keeps the unfinished records. *)
Lemma count_unfinished (P : QueuedTask → Prop) `{∀ t, Decision (P t)} l :
  count P (filter (λ t, ¬ finished t) l) =
    count (λ t, P t ∧ ¬ finished t) l.
Proof.
  induction l as [|t l IH]; [done|]. rewrite filter_cons.
  rewrite (count_cons (λ t, P t ∧ ¬ finished t)).
  destruct (decide (¬ finished t)).
  - rewrite count_cons, IH. destruct (decide (P t)), (decide (P t ∧ ¬ finished t)); tauto || lia.
  - rewrite IH. destruct (decide (P t ∧ ¬ finished t)); tauto || lia.
Qed.

Lemma count_ext (P Q : QueuedTask → Prop) `{∀ t, Decision (P t)}
    `{∀ t, Decision (Q t)} l :
  (∀ t, P t ↔ Q t) → count P l = count Q l.
Proof. intros Hext. unfold count. by rewrite (list_filter_iff P Q). Qed.

Lemma count_none (P : QueuedTask → Prop) `{∀ t, Decision (P t)} l :
  (∀ t, ¬ P t) → count P l = 0.
Proof.
  intros Hn. induction l as [|t l IH]; [done|].
  rewrite count_cons, IH. by rewrite decide_False.
Qed.

Lemma count_split_finished l :
  Z.of_nat (length l) =
    count (λ t, ¬ finished t) l
    + (count (λ t, status t = completed) l + count (λ t, status t = failed) l).
Proof.
  induction l as [|t l IH]; [done|]. rewrite !count_cons. simpl length.
  rewrite Nat2Z.inj_succ, IH.
  repeat case_decide; unfold finished in *; try lia;
    exfalso; destruct (status t); intuition congruence.
Qed.

Lemma get_filter {V} (Q : string * V → Prop) `{∀ e, Decision (Q e)} k
    (m : list (string * V)) :
  NoDup (JsMap.keys m) →
  JsMap.get k (filter Q m) =
    match JsMap.get k m with
    | Some v => if decide (Q (k, v)) then Some v else None
    | None => None
    end.
Proof.
  unfold JsMap.keys. induction m as [|[k' v'] m IH]; [done|].
  rewrite fmap_cons, NoDup_cons. simpl. intros [Hk Hnd].
  rewrite filter_cons. destruct (decide (k' = k)) as [->|Hne].
  - destruct (decide (Q (k, v'))); simpl.
    + by rewrite decide_True.
    + rewrite IH by done.
      by rewrite (proj2 (JsMapFacts.get_None k m) Hk).
  - destruct (decide (Q (k', v'))); simpl.
    + rewrite decide_False by done. by apply IH.
    + by apply IH.
Qed.

Lemma taskValues_clear s :
  NoDup (JsMap.keys (tasks s)) →
  taskValues (clearCompletedTasks s).2 =
    filter (λ t, ¬ finished t) (taskValues s).
Proof.
  intros Hnd. unfold taskValues, taskRefs at 1.
  rewrite clearCompletedTasks_tasks by done.
  change (heap (clearCompletedTasks s).2) with (heap s).
  rewrite taskRefs_filter. fold (taskRefs s). by rewrite filter_fmap.
Qed.

Lemma count_finished l :
  count finished l =
    count (λ t, status t = completed) l + count (λ t, status t = failed) l.
Proof.
  induction l as [|t l IH]; [done|]. rewrite !count_cons, IH.
  repeat case_decide; unfold finished in *; try lia;
    exfalso; destruct (status t); intuition congruence.
Qed.

(** C6. On a registry whose keys are distinct, [clearCompletedTasks] leaves
    the task objects untouched and keeps, in their order, exactly the
    entries whose record is not completed or failed: every id whose record
    was pending or running reads the same record afterwards, every id whose
    record was completed or failed reads absent.  It returns the number of
    records removed, the completed plus the failed ones; the total drops by
    that number, the pending and running counts are unchanged and no
    completed or failed record remains. *)
Theorem clearCompletedTasks_purges (s : AsyncTaskService) :
  NoDup (JsMap.keys (tasks s)) →
  let n := (clearCompletedTasks s).1 in
  let s' := (clearCompletedTasks s).2 in
  heap s' = heap s
  ∧ tasks s' = filter (λ e, ¬ finishedRef s e.2) (tasks s)
  ∧ (∀ k, getTaskStatus s' k =
          match getTaskStatus s k with
          | Some t => if decide (finished t) then None else Some t
          | None => None
          end)
  ∧ n = qs_completed (getQueueStats s) + qs_failed (getQueueStats s)
  ∧ qs_total (getQueueStats s') = qs_total (getQueueStats s) - n
  ∧ qs_pending (getQueueStats s') = qs_pending (getQueueStats s)
  ∧ qs_running (getQueueStats s') = qs_running (getQueueStats s)
  ∧ qs_completed (getQueueStats s') = 0
  ∧ qs_failed (getQueueStats s') = 0
  ∧ qs_byPriority (getQueueStats s') = qs_byPriority (getQueueStats s)
  ∧ runningTasks s' = runningTasks s.
Proof.
  intros Hnd n s'.
  assert (Hn : n = count finished (taskValues s)).
  { unfold n, clearCompletedTasks, count. simpl.
    rewrite <-taskEntries_values, filter_fmap, length_fmap. done. }
  pose proof (taskValues_clear s Hnd) as Hvals. fold s' in Hvals.
  split_and!.
  - done.
  - by apply clearCompletedTasks_tasks.
  - intros k. unfold getTaskStatus, lookupTask. unfold s'.
    rewrite clearCompletedTasks_tasks by done.
    change (heap (clearCompletedTasks s).2) with (heap s).
    rewrite get_filter by done.
    destruct (JsMap.get k (tasks s)) as [r|]; [|done]. simpl.
    destruct (decide (¬ finishedRef s r)) as [Hf|Hf];
      unfold finishedRef in Hf; destruct (heap s !! r) as [t|] eqn:Hl;
      simpl; rewrite ?Hl; try done; try (exfalso; tauto).
    + by rewrite decide_False.
    + rewrite decide_True; [done|]. by apply dec_stable.
  - rewrite Hn. simpl. apply count_finished.
  - simpl. rewrite Hvals, Hn, count_finished.
    pose proof (count_split_finished (taskValues s)) as Hsplit.
    change (Z.of_nat (length (filter (λ t, ¬ finished t) (taskValues s))))
      with (count (λ t, ¬ finished t) (taskValues s)). lia.
  - simpl. rewrite Hvals, count_unfinished. apply count_ext.
    intros t. unfold finished. split; [tauto|]. intros Hp.
    split; [done|]. rewrite Hp. intros [?|?]; congruence.
  - simpl. rewrite Hvals, count_unfinished. apply count_ext.
    intros t. unfold finished. split; [tauto|]. intros Hp.
    split; [done|]. rewrite Hp. intros [?|?]; congruence.
  - simpl. rewrite Hvals, count_unfinished. apply count_none.
    intros t. unfold finished. tauto.
  - simpl. rewrite Hvals, count_unfinished. apply count_none.
    intros t. unfold finished. tauto.
  - simpl. rewrite Hvals, !count_unfinished. f_equal; apply count_ext;
      intros t; unfold finished; (split; [tauto|]); intros [Hq Hp];
      (split_and!; [done..|]); rewrite Hp; intros [?|?]; congruence.
  - done.
Qed.

(** ** Cancellation (cancelTask) *)

Lemma cancelTask_true taskId s :
  (cancelTask taskId s).1 = true ↔
    ∃ t, getTaskStatus s taskId = Some t
         ∧ (status t = pending ∨ status t = failed).
Proof.
  unfold cancelTask, getTaskStatus.
  destruct (lookupTask s taskId) as [t|]; simpl.
  - destruct (status t) eqn:Hst; simpl; split; try done;
      try (intros _; exists t; by auto);
      intros (t' & [= <-] & [?|?]); congruence.
  - split; [done | by intros (? & ? & _)].
Qed.

Lemma cancelTask_state taskId s :
  (cancelTask taskId s).1 = true →
  (cancelTask taskId s).2 = with_tasks (JsMap.delete taskId (tasks s)) s.
Proof.
  unfold cancelTask. destruct (lookupTask s taskId) as [t|]; [|done].
  by destruct (_ || _).
Qed.

(** C10. On a registry whose keys are distinct, when [cancelTask] returns
    true the entry is gone from the registry and no task object is changed
    (there is no cancelled status): [getTaskStatus] of the id is absent
    afterwards, the values of the registry are the former ones without that
    record, the total drops by one and every count of [getQueueStats], each
    a count of the values that satisfy some condition, no longer includes
    the record. *)
Theorem cancelTask_deletes (taskId : string) (s : AsyncTaskService) :
  NoDup (JsMap.keys (tasks s)) →
  (cancelTask taskId s).1 = true →
  let s' := (cancelTask taskId s).2 in
  getTaskStatus s' taskId = None
  ∧ (taskId ∉ JsMap.keys (tasks s'))
  ∧ heap s' = heap s
  ∧ ∃ t, getTaskStatus s taskId = Some t
      ∧ (∃ l1 l2, taskValues s = l1 ++ t :: l2 ∧ taskValues s' = l1 ++ l2)
      ∧ qs_total (getQueueStats s') = qs_total (getQueueStats s) - 1
      ∧ (∀ (P : QueuedTask → Prop) (dec : ∀ t, Decision (P t)),
           count P (taskValues s') =
             count P (taskValues s) - (if decide (P t) then 1 else 0))
      ∧ qs_runningTasks (getQueueStats s') = qs_runningTasks (getQueueStats s).
Proof.
  intros Hnd Htrue s'. unfold s'. rewrite (cancelTask_state _ _ Htrue).
  apply cancelTask_true in Htrue as (t & Hget & _).
  unfold getTaskStatus, lookupTask in *. simpl.
  rewrite JsMapFacts.get_delete_eq. split_and!; [done| |done|].
  { apply JsMapFacts.get_None, JsMapFacts.get_delete_eq. }
  exists t. split; [done|].
  destruct (JsMap.get taskId (tasks s)) as [r|] eqn:Hr; [|done].
  destruct (JsMapFacts.delete_split _ _ _ Hnd Hr) as (m1 & m2 & Hm & Hdel).
  set (f := λ e : string * nat, (e.2,.) <$> heap s !! e.2).
  assert (Hvals : taskValues s = (omap f m1).*2 ++ t :: (omap f m2).*2).
  { unfold taskValues, taskRefs. fold f. rewrite Hm, omap_app, omap_cons.
    unfold f at 2. simpl. rewrite Hget. simpl. by rewrite fmap_app. }
  assert (Hvals' : taskValues (with_tasks (JsMap.delete taskId (tasks s)) s)
                   = (omap f m1).*2 ++ (omap f m2).*2).
  { unfold taskValues, taskRefs. simpl. fold f.
    by rewrite Hdel, omap_app, fmap_app. }
  split_and!.
  - eauto.
  - simpl. fold (taskValues s).
    change (Z.of_nat (length ((taskRefs (with_tasks (JsMap.delete taskId (tasks s)) s)).*2)))
      with (Z.of_nat (length (taskValues (with_tasks (JsMap.delete taskId (tasks s)) s)))).
    rewrite Hvals, Hvals', !length_app. simpl. lia.
  - intros P dec. rewrite Hvals, Hvals', !count_app, count_cons. lia.
  - done.
Qed.

Lemma cancelTask_deletes_witness :
  NoDup (JsMap.keys (tasks mixedRegistry))
  ∧ (cancelTask "task_1500_ccc" mixedRegistry).1 = true
  ∧ getTaskStatus (cancelTask "task_1500_ccc" mixedRegistry).2 "task_1500_ccc"
    = None.
Proof.
  assert (Hnd : NoDup (JsMap.keys (tasks mixedRegistry))).
  { apply inv_keys, reachable_invariant, reachable_run, reachable_init. }
  assert (Htrue : (cancelTask "task_1500_ccc" mixedRegistry).1 = true)
    by (vm_compute; reflexivity).
  split_and!; [exact Hnd | exact Htrue |].
  exact (proj1 (cancelTask_deletes "task_1500_ccc" mixedRegistry Hnd Htrue)).
Defined.

Lemma clearCompletedTasks_purges_witness :
  NoDup (JsMap.keys (tasks mixedRegistry))
  ∧ heap (clearCompletedTasks mixedRegistry).2 = heap mixedRegistry
  ∧ tasks (clearCompletedTasks mixedRegistry).2 =
      filter (λ e, ¬ finishedRef mixedRegistry e.2) (tasks mixedRegistry).
Proof.
  assert (Hnd : NoDup (JsMap.keys (tasks mixedRegistry))).
  { apply inv_keys, reachable_invariant, reachable_run, reachable_init. }
  split; [exact Hnd|].
  pose proof (clearCompletedTasks_purges mixedRegistry Hnd) as H.
  exact (conj (proj1 H) (proj1 (proj2 H))).
Defined.


(** ** Retries *)

(** The rule of the [catch] block: after a failed attempt the record goes
    back to pending, with [nextRetry] at [now] plus its fixed [retryDelay],
    when its attempts are below its [retries]; otherwise it becomes
    failed. *)
Lemma handleOutcome_rejected r e now s t :
  heap s !! r = Some t →
  heap (handleOutcome r (Rejected e) now s) !! r =
    Some (if attempts t <? retries (options t)
          then set_nextRetry (now + retryDelay (options t))
                 (set_status pending t)
          else set_status failed t).
Proof.
  intros Hl.
  destruct (handleOutcome_heap r (Rejected e) now s t Hl)
    as (t' & -> & _ & _ & _ & _ & _ & _ & _ & Ho).
  rewrite list_lookup_insert_eq by eauto using lookup_lt_Some.
  by destruct (attempts t <? retries (options t)); subst.
Qed.

(** C1, evaluated.  In every reachable state a failed record has
    [attempts] equal to the larger of 1 and its [retries], and no record ever
    has more attempts than that: with [retries = R] at least 1 the record is
    failed after R attempts, not R + 1.  With [retries = 3] (the default)
    and every attempt failing, by handler error or by timeout, the record is
    pending after the second failure, with [nextRetry] at the time of the
    failure plus the fixed 5000 ms, and it is failed after the third
    attempt: the handler has been called three times.  With [retries = 1] it
    is failed after its first attempt. *)
Theorem retries_exhausted_one_attempt_early :
  (∀ s r t, reachable s → heap s !! r = Some t → status t = failed →
     attempts t = Z.max 1 (retries (options t)))
  ∧ (∀ s r t, reachable s → heap s !! r = Some t →
       attempts t <= Z.max 1 (retries (options t)))
  ∧ (status <$> heap twoFailures !! 0%nat) = Some pending
  ∧ (attempts <$> heap twoFailures !! 0%nat) = Some 2
  ∧ (nextRetry <$> heap twoFailures !! 0%nat) = Some (Some (36200 + 5000))
  ∧ (retries ∘ options <$> heap threeFailures !! 0%nat) = Some 3
  ∧ (status <$> heap threeFailures !! 0%nat) = Some failed
  ∧ (attempts <$> heap threeFailures !! 0%nat) = Some 3
  ∧ handlerCalls threeFailures = [7%nat; 7%nat; 7%nat]
  ∧ (retries ∘ options <$> heap oneFailure !! 0%nat) = Some 1
  ∧ (status <$> heap oneFailure !! 0%nat) = Some failed
  ∧ (attempts <$> heap oneFailure !! 0%nat) = Some 1.
Proof.
  split_and!; try (by vm_compute).
  - intros s r t Hs Hl Hst. pose proof (reachable_attempts s Hs r t Hl) as Hok.
    unfold attemptsOk in Hok. rewrite Hst in Hok. lia.
  - intros s r t Hs Hl. pose proof (reachable_attempts s Hs r t Hl) as Hok.
    unfold attemptsOk in Hok. destruct (status t); lia.
Qed.

(** C2, evaluated.  [cancelTask] on the id of a failed record returns true
    and removes the record; it returns true exactly for pending and failed
    records. *)
Theorem cancelTask_failed_record :
  (status <$> getTaskStatus oneFailure "task_1000_abc") = Some failed
  ∧ (cancelTask "task_1000_abc" oneFailure).1 = true
  ∧ getTaskStatus (cancelTask "task_1000_abc" oneFailure).2 "task_1000_abc"
    = None
  ∧ ∀ taskId s,
      (cancelTask taskId s).1 = true ↔
        ∃ t, getTaskStatus s taskId = Some t
             ∧ (status t = pending ∨ status t = failed).
Proof.
  split_and!; [by vm_compute..|]. apply cancelTask_true.
Qed.

(** ** Construction *)

Lemma constructor_fields cfg :
  isEnabled (constructor cfg) = asyncTasksFlag cfg
  ∧ maxConcurrentTasks (constructor cfg) = 5
  ∧ defaultRetries (constructor cfg) = 3
  ∧ defaultRetryDelay (constructor cfg) = 5000
  ∧ defaultTimeout (constructor cfg) = 30000
  ∧ workers (constructor cfg) =
      (if asyncTasksFlag cfg then replicate 5 100 else []).
Proof.
  unfold constructor. fold (asyncTasksFlag cfg).
  by destruct (asyncTasksFlag cfg).
Qed.

Lemma not_configurable {A} (param : AsyncTaskService → A) (v : A) :
  (∀ cfg, param (constructor cfg) = v) → ¬ configurable param.
Proof. intros Hv (c1 & c2 & Hne). apply Hne. by rewrite !Hv. Qed.

(** C8 as stated does not hold: the maximum concurrency of the constructed
    service is the same under every configuration. *)
Lemma constructor_ignores_limits : ¬ consumes_configuration.
Proof.
  intros (_ & Hmax & _). revert Hmax. apply (not_configurable _ 5).
  intros cfg. apply constructor_fields.
Qed.

Lemma take_timer_elem k l rest e :
  take_timer k l = Some rest → e ∈ rest → e ∈ l.
Proof.
  revert rest. induction l as [|e' l IH]; intros rest; simpl; [done|].
  destruct (decide (e'.1 = k)).
  - intros [= ->] ?. by apply list_elem_of_further.
  - destruct (take_timer k l) as [rest'|]; simpl; [|done].
    intros [= <-] [-> | ?]%elem_of_cons; [apply list_elem_of_here|].
    apply list_elem_of_further. eauto.
Qed.

Lemma handleOutcome_timers r o now s e :
  e ∈ purgeTimers (handleOutcome r o now s) →
  e ∈ purgeTimers s ∨ e.2 = 60000.
Proof.
  unfold handleOutcome. destruct (heap s !! r) as [t|]; [|by left].
  destruct o as [v|err]; simpl.
  - intros [?| ->%list_elem_of_singleton]%elem_of_app; [by left | by right].
  - destruct (_ <? _); by left.
Qed.

Lemma handleOutcome_workers r o now s :
  workers (handleOutcome r o now s) = workers s.
Proof.
  unfold handleOutcome. destruct (heap s !! r) as [t|]; [|done].
  destruct o; [done|]. by destruct (_ <? _).
Qed.

Lemma processNextTask_timers now s :
  workers (processNextTask now s) = workers s
  ∧ purgeTimers (processNextTask now s) = purgeTimers s.
Proof.
  by destruct (processNextTask_cases now s) as [[-> _]|(r & t & _ & _ & ->)].
Qed.

Lemma reachable_timers s :
  reachable s →
  (∀ p, p ∈ workers s → p = 100) ∧ (∀ e, e ∈ purgeTimers s → e.2 = 60000).
Proof.
  induction 1 as [cfg|s ev Hs [IHw IHp]].
  - destruct (constructor_fields cfg) as (_ & _ & _ & _ & _ & ->). split.
    + destruct (asyncTasksFlag cfg); intros p Hp;
        [by apply elem_of_replicate in Hp as [? _] | by apply elem_of_nil in Hp].
    + unfold constructor. fold (asyncTasksFlag cfg).
      destruct (asyncTasksFlag cfg); intros e He; by apply elem_of_nil in He.
  - destruct ev as [name h o now rnd|taskId| |now|r0 ev|r0 now|taskId|]; simpl.
    + unfold addTask. by destruct (isEnabled s).
    + unfold cancelTask. destruct (lookupTask s taskId); [|done].
      by destruct (_ || _).
    + done.
    + assert (Hsame : ∀ s', workers s' = workers s →
                purgeTimers s' = purgeTimers s →
                (∀ p, p ∈ workers s' → p = 100)
                ∧ (∀ e, e ∈ purgeTimers s' → e.2 = 60000)).
      { intros s' Hw Hp. by rewrite Hw, Hp. }
      destruct (processNextTask_timers now s).
      assert (Hcase : dispatch (WorkerTick now) s = s
                      ∨ dispatch (WorkerTick now) s = processNextTask now s).
      { simpl. destruct (workers s); [by left|].
        destruct (isShuttingDown s); [by left | by right]. }
      change (match workers s with
              | [] => s
              | _ :: _ => if isShuttingDown s then s else processNextTask now s
              end) with (dispatch (WorkerTick now) s).
      by destruct Hcase as [-> | ->]; apply Hsame.
    + done.
    + destruct (take_activation r0 (awaiting s)) as [[a rest]|]; [|done].
      destruct (promise (act_exec a)) as [o|]; [|done].
      unfold processNextTask_resume. simpl.
      rewrite handleOutcome_workers. split; [done|].
      intros e [?|?]%handleOutcome_timers; auto.
    + destruct (take_timer taskId (purgeTimers s)) as [rest|] eqn:Ht; [|done].
      simpl. split; [done|]. intros e He. eauto using take_timer_elem.
    + simpl. split; [|done]. intros p Hp. by apply elem_of_nil in Hp.
Qed.

(** C8, amended.  The constructor takes one value from the configuration,
    the flag [app.features.asyncTasksEnabled] (false when absent), which
    decides whether the polling intervals are started.  The maximum
    concurrency (5), the default retry count (3), retry delay (5000 ms) and
    timeout (30000 ms) are the same under every configuration, and in every
    reachable state the polling intervals have a period of 100 ms and the
    purge timers a delay of 60000 ms. *)
Theorem constructor_configuration :
  (∀ cfg,
     isEnabled (constructor cfg) = asyncTasksFlag cfg
     ∧ maxConcurrentTasks (constructor cfg) = 5
     ∧ defaultRetries (constructor cfg) = 3
     ∧ defaultRetryDelay (constructor cfg) = 5000
     ∧ defaultTimeout (constructor cfg) = 30000
     ∧ workers (constructor cfg) =
         (if asyncTasksFlag cfg then replicate 5 100 else []))
  ∧ configurable isEnabled
  ∧ ¬ configurable maxConcurrentTasks
  ∧ ¬ configurable defaultRetries
  ∧ ¬ configurable defaultRetryDelay
  ∧ ¬ configurable defaultTimeout
  ∧ (∀ s, reachable s →
       maxConcurrentTasks s = 5 ∧ defaultRetries s = 3
       ∧ defaultRetryDelay s = 5000 ∧ defaultTimeout s = 30000
       ∧ (∀ p, p ∈ workers s → p = 100)
       ∧ (∀ e, e ∈ purgeTimers s → e.2 = 60000)).
Proof.
  split_and!.
  - apply constructor_fields.
  - exists (Some enabledConfig), (Some disabledConfig). done.
  - apply (not_configurable _ 5). intros. apply constructor_fields.
  - apply (not_configurable _ 3). intros. apply constructor_fields.
  - apply (not_configurable _ 5000). intros. apply constructor_fields.
  - apply (not_configurable _ 30000). intros. apply constructor_fields.
  - intros s Hs. destruct (inv_readonly s (reachable_invariant s Hs))
      as (? & ? & ? & ?).
    destruct (reachable_timers s Hs). by split_and!.
Qed.

(** * Further properties *)

(** ** Statistics *)

Lemma count_nonneg (P : QueuedTask → Prop) `{∀ t, Decision (P t)} l :
  0 <= count P l.
Proof. unfold count. lia. Qed.

Lemma count_by_status l :
  Z.of_nat (length l) =
    count (λ t, status t = pending) l + count (λ t, status t = running) l
    + count (λ t, status t = completed) l + count (λ t, status t = failed) l.
Proof.
  induction l as [|t l IH]; [done|]. rewrite !count_cons. simpl length.
  rewrite Nat2Z.inj_succ, IH.
  repeat case_decide; try lia; exfalso; destruct (status t); congruence.
Qed.

Lemma count_by_priority l :
  count (λ t, status t = pending) l =
    count (λ t, priority (options t) = high ∧ status t = pending) l
    + count (λ t, priority (options t) = normal ∧ status t = pending) l
    + count (λ t, priority (options t) = low ∧ status t = pending) l.
Proof.
  induction l as [|t l IH]; [done|]. rewrite !count_cons, IH.
  repeat case_decide; try lia; exfalso;
    destruct (priority (options t)); intuition congruence.
Qed.

(** X1. The statistics are consistent in every state: the total is the sum
    of the pending, running, completed and failed counts, the pending count
    is the sum of the three per-priority counts, and no count is negative. *)
Theorem getQueueStats_consistent (s : AsyncTaskService) :
  let q := getQueueStats s in
  qs_total q = qs_pending q + qs_running q + qs_completed q + qs_failed q
  ∧ qs_pending q =
      bp_high (qs_byPriority q) + bp_normal (qs_byPriority q)
      + bp_low (qs_byPriority q)
  ∧ 0 <= qs_pending q ∧ 0 <= qs_running q ∧ 0 <= qs_completed q
  ∧ 0 <= qs_failed q
  ∧ 0 <= bp_high (qs_byPriority q) ∧ 0 <= bp_normal (qs_byPriority q)
  ∧ 0 <= bp_low (qs_byPriority q).
Proof.
  simpl. split_and!; try apply count_nonneg; try done.
  - apply count_by_status.
  - apply count_by_priority.
Qed.

(** ** Cancellation leaves the rest alone *)

(** X2. [cancelTask] changes nothing but the registry entry of the id it is
    given: the task objects, the in-flight counter, the suspended
    activations and the record read under any other id are as before.  When
    it returns false, the whole state is as before; for an id that is not in
    the registry it returns false. *)
Theorem cancelTask_frame (taskId : string) (s : AsyncTaskService) :
  let s' := (cancelTask taskId s).2 in
  heap s' = heap s
  ∧ runningTasks s' = runningTasks s
  ∧ awaiting s' = awaiting s
  ∧ purgeTimers s' = purgeTimers s
  ∧ (∀ k, k ≠ taskId → getTaskStatus s' k = getTaskStatus s k)
  ∧ ((cancelTask taskId s).1 = false → s' = s)
  ∧ (getTaskStatus s taskId = None → (cancelTask taskId s).1 = false).
Proof.
  unfold cancelTask, getTaskStatus.
  destruct (lookupTask s taskId) as [t|] eqn:Hl; simpl; [|by split_and!].
  destruct (_ || _); simpl; [by split_and!|].
  split_and!; try done.
  intros k Hk. unfold lookupTask. simpl.
  by rewrite JsMapFacts.get_delete_ne.
Qed.

(** ** The purge, twice *)

Lemma filter_none {A} (P : A → Prop) `{∀ x, Decision (P x)} (l : list A) :
  (∀ x, x ∈ l → ¬ P x) → filter P l = [].
Proof.
  induction l as [|x l IH]; intros Hn; [done|].
  rewrite filter_cons_False by (apply Hn, list_elem_of_here).
  apply IH. intros y Hy. by apply Hn, list_elem_of_further.
Qed.

(** X3. On a registry whose keys are distinct, a second [clearCompletedTasks]
    right after a first removes nothing: it returns 0 and leaves the state
    as the first call left it. *)
Theorem clearCompletedTasks_idempotent (s : AsyncTaskService) :
  NoDup (JsMap.keys (tasks s)) →
  clearCompletedTasks (clearCompletedTasks s).2
  = (0, (clearCompletedTasks s).2).
Proof.
  intros Hnd. set (s' := (clearCompletedTasks s).2).
  assert (Hnone : filter (λ e, finished e.2) (taskEntries s') = []).
  { apply filter_none. intros [k t] (r & Hin & Hl)%taskEntries_elem Hfin.
    unfold s' in Hin. rewrite clearCompletedTasks_tasks in Hin by done.
    apply list_elem_of_filter in Hin as [Hnf _]. apply Hnf.
    unfold finishedRef. simpl.
    change (heap s') with (heap s) in Hl. by rewrite Hl. }
  unfold clearCompletedTasks at 1. rewrite Hnone. simpl. done.
Qed.

Lemma clearCompletedTasks_idempotent_witness :
  NoDup (JsMap.keys (tasks mixedRegistry))
  ∧ clearCompletedTasks (clearCompletedTasks mixedRegistry).2
    = (0, (clearCompletedTasks mixedRegistry).2).
Proof.
  assert (Hnd : NoDup (JsMap.keys (tasks mixedRegistry))).
  { apply inv_keys, reachable_invariant, reachable_run, reachable_init. }
  split; [exact Hnd|]. exact (clearCompletedTasks_idempotent mixedRegistry Hnd).
Defined.

(** ** The race, at every moment *)





(** ** A disabled service *)

Lemma inert_dispatch ev s : inert s → inert (dispatch ev s).
Proof.
  intros (Hh & Ht & Hw & Ha & Hp & Hc & Hr & He).
  destruct ev as [name h o now rnd|taskId| |now|r0 ev|r0 now|taskId|]; simpl.
  - unfold addTask. rewrite He. simpl. by repeat split.
  - unfold cancelTask, lookupTask. rewrite Ht. simpl. by repeat split.
  - unfold taskEntries. rewrite Ht. simpl. by repeat split.
  - rewrite Hw. by repeat split.
  - rewrite Ha. by repeat split.
  - rewrite Ha. simpl. by repeat split.
  - rewrite Hp. simpl. by repeat split.
  - by repeat split.
Qed.

Lemma inert_constructor cfg :
  asyncTasksFlag cfg = false → inert (constructor cfg).
Proof.
  intros Hflag. unfold constructor. fold (asyncTasksFlag cfg).
  rewrite Hflag. by repeat split.
Qed.

Lemma inert_run evs s : inert s → inert (run evs s).
Proof.
  revert s. induction evs as [|ev evs IH]; intros s Hs; [done|].
  apply IH. by apply inert_dispatch.
Qed.

(** X5. A service constructed with the feature flag off or absent stays
    empty under every sequence of events: every [addTask] throws, the
    registry and the store stay empty, no interval exists, no handler is
    ever called and the statistics are all zero. *)
Theorem disabled_service_inert (cfg : option AppConfig) (evs : list Event) :
  asyncTasksFlag cfg = false →
  let s := run evs (constructor cfg) in
  tasks s = [] ∧ heap s = [] ∧ workers s = [] ∧ handlerCalls s = []
  ∧ runningTasks s = 0
  ∧ qs_total (getQueueStats s) = 0
  ∧ qs_isEnabled (getQueueStats s) = false
  ∧ (∀ name h o now rnd,
       addTask name h o now rnd s = Throw "Async Task Service is disabled")
  ∧ (∀ k, getTaskStatus s k = None).
Proof.
  intros Hflag s.
  assert (Hinert : inert s) by by apply inert_run, inert_constructor.
  destruct Hinert as (Hh & Ht & Hw & Ha & Hp & Hc & Hr & He).
  split_and!; try done.
  - unfold getQueueStats, taskValues, taskRefs. simpl. by rewrite Ht.
  - intros. unfold addTask. by rewrite He.
  - intros k. unfold getTaskStatus, lookupTask. by rewrite Ht.
Qed.

Lemma disabled_service_inert_witness :
  asyncTasksFlag (Some disabledConfig) = false
  ∧ tasks (run [CallAddTask "job" 1%nat TaskOptions.empty 1000 "abc";
                WorkerTick 1100] (constructor (Some disabledConfig))) = [].
Proof.
  split; [reflexivity|].
  exact (proj1 (disabled_service_inert (Some disabledConfig)
                  [CallAddTask "job" 1%nat TaskOptions.empty 1000 "abc";
                   WorkerTick 1100] eq_refl)).
Defined.

(** ** The polling intervals *)

Lemma handleOutcome_flags r o now s :
  isEnabled (handleOutcome r o now s) = isEnabled s
  ∧ isShuttingDown (handleOutcome r o now s) = isShuttingDown s.
Proof.
  unfold handleOutcome. destruct (heap s !! r) as [t|]; [|done].
  destruct o; [done|]. by destruct (_ <? _).
Qed.

Lemma processNextTask_flags now s :
  isEnabled (processNextTask now s) = isEnabled s
  ∧ isShuttingDown (processNextTask now s) = isShuttingDown s.
Proof.
  by destruct (processNextTask_cases now s) as [[-> _]|(r & t & _ & _ & ->)].
Qed.

(** The flag is never changed, and shutting down is never undone. *)
Lemma dispatch_flags ev s :
  isEnabled (dispatch ev s) = isEnabled s
  ∧ (isShuttingDown (dispatch ev s) = isShuttingDown s
     ∨ ev = CallOnModuleDestroy).
Proof.
  destruct ev as [name h o now rnd|taskId| |now|r0 ev|r0 now|taskId|].
  - simpl. unfold addTask. destruct (isEnabled s) eqn:He; simpl; auto.
  - simpl. unfold cancelTask. destruct (lookupTask s taskId); [|auto].
    destruct (_ || _); auto.
  - auto.
  - destruct (dispatch_WorkerTick now s) as [-> | ->]; [auto|].
    destruct (processNextTask_flags now s) as [-> ->]. auto.
  - auto.
  - simpl. destruct (take_activation r0 (awaiting s)) as [[a rest]|]; [|auto].
    destruct (promise (act_exec a)); [|auto].
    unfold processNextTask_resume. simpl.
    destruct (handleOutcome_flags r0 s0 now (with_awaiting rest s)) as [-> ->].
    auto.
  - simpl. destruct (take_timer taskId (purgeTimers s)); auto.
  - auto.
Qed.

Lemma reachable_workers s :
  reachable s →
  workers s =
    (if isEnabled s && negb (isShuttingDown s) then replicate 5 100 else []).
Proof.
  intros Hs. induction Hs as [cfg|s ev Hs IH].
  - destruct (constructor_fields cfg) as (-> & _ & _ & _ & _ & ->).
    unfold constructor. fold (asyncTasksFlag cfg).
    by destruct (asyncTasksFlag cfg).
  - assert (Hsame : ev ≠ CallOnModuleDestroy →
              workers (dispatch ev s) = workers s →
              workers (dispatch ev s) =
                (if isEnabled (dispatch ev s)
                    && negb (isShuttingDown (dispatch ev s))
                 then replicate 5 100 else [])).
    { intros Hne Hw. destruct (dispatch_flags ev s) as [He [Hsd|?]]; [|done].
      by rewrite He, Hsd, Hw. }
    destruct ev as [name h o now rnd|taskId| |now|r0 ev|r0 now|taskId|];
      try (apply Hsame; [done|]).
    + simpl. unfold addTask. by destruct (isEnabled s).
    + simpl. unfold cancelTask. destruct (lookupTask s taskId); [|done].
      by destruct (_ || _).
    + done.
    + destruct (dispatch_WorkerTick now s) as [-> | ->]; [done|].
      apply processNextTask_timers.
    + done.
    + simpl. destruct (take_activation r0 (awaiting s)) as [[a rest]|];
        [|done].
      destruct (promise (act_exec a)); [|done].
      unfold processNextTask_resume. simpl.
      by rewrite handleOutcome_workers.
    + simpl. by destruct (take_timer taskId (purgeTimers s)).
    + simpl. by rewrite andb_false_r.
Qed.

(** X6. In every reachable state the service has its five polling intervals
    of 100 ms exactly when it is enabled and has not been shut down, and
    none otherwise; so the [workers] figure of the statistics is 5 or 0. *)
Theorem workers_while_running (s : AsyncTaskService) :
  reachable s →
  workers s =
    (if isEnabled s && negb (isShuttingDown s) then replicate 5 100 else [])
  ∧ qs_workers (getQueueStats s) =
      (if isEnabled s && negb (isShuttingDown s) then 5 else 0).
Proof.
  intros Hs.
  pose proof (reachable_workers s Hs) as Hw.
  split; [done|]. simpl. rewrite Hw.
  by destruct (isEnabled s && negb (isShuttingDown s)).
Qed.

Lemma workers_while_running_witness :
  reachable mixedRegistry
  ∧ qs_workers (getQueueStats mixedRegistry) =
      (if isEnabled mixedRegistry && negb (isShuttingDown mixedRegistry)
       then 5 else 0).
Proof.
  assert (Hr : reachable mixedRegistry) by apply reachable_run, reachable_init.
  split; [exact Hr|]. exact (proj2 (workers_while_running mixedRegistry Hr)).
Defined.

(** ** What a record keeps *)

Lemma dispatch_fields s ev r t t' :
  invariant s → heap s !! r = Some t → heap (dispatch ev s) !! r = Some t' →
  id t' = id t ∧ name t' = name t ∧ handler t' = handler t
  ∧ options t' = options t ∧ createdAt t' = createdAt t
  ∧ attempts t <= attempts t'
  ∧ (finished t → t' = t).
Proof.
  intros Hinv Hl Hl'.
  destruct (dispatch_object s ev r t' Hinv Hl')
    as [Hsame|[(Hn & _)|[(t0 & now & _ & Hl0 & Hst & ->)
                        |(t0 & now & _ & Hl0 & Hst & Hout)]]].
  - assert (t' = t) as -> by congruence. split_and!; (done || lia).
  - congruence.
  - assert (t0 = t) as -> by congruence. simpl.
    split_and!; try done; try lia. intros [?|?]; congruence.
  - assert (t0 = t) as -> by congruence.
    assert (Hnf : ¬ finished t) by (intros [?|?]; congruence).
    destruct Hout as [-> |[[_ ->]|[_ ->]]]; simpl;
      split_and!; try done; lia.
Qed.

Lemma run_fields (s : AsyncTaskService) (evs : list Event)
    (r : nat) (t : QueuedTask) :
  reachable s → heap s !! r = Some t →
  ∃ t', heap (run evs s) !! r = Some t'
    ∧ id t' = id t ∧ name t' = name t ∧ handler t' = handler t
    ∧ options t' = options t ∧ createdAt t' = createdAt t
    ∧ attempts t <= attempts t'
    ∧ (finished t → t' = t).
Proof.
  revert s t. induction evs as [|ev evs IH]; intros s t Hs Hl.
  - exists t. split_and!; (done || lia).
  - assert (Hsome : is_Some (heap (dispatch ev s) !! r)).
    { apply lookup_lt_is_Some. apply lookup_lt_Some in Hl.
      pose proof (dispatch_heap_length ev s). lia. }
    destruct Hsome as [t1 Hl1].
    destruct (dispatch_fields s ev r t t1 (reachable_invariant s Hs) Hl Hl1)
      as (Hi & Hn & Hh & Ho & Hc & Ha & Hf).
    destruct (IH (dispatch ev s) t1 (reachable_step s ev Hs) Hl1)
      as (t' & Hl' & Hi' & Hn' & Hh' & Ho' & Hc' & Ha' & Hf').
    exists t'. simpl. split_and!; try congruence; try lia.
    intros Hfin. specialize (Hf Hfin). subst t1. auto.
Qed.


(** X7. Over every sequence of events from a reachable state, a task object
    stays in the store and keeps its id, name, handler, options and creation
    time; its attempts never decrease; and once it is completed or failed it
    is never modified again. *)
Theorem records_keep_identity (s : AsyncTaskService) (evs : list Event)
    (r : nat) (t : QueuedTask) :
  reachable s → heap s !! r = Some t →
  ∃ t', heap (run evs s) !! r = Some t'
    ∧ id t' = id t ∧ name t' = name t ∧ handler t' = handler t
    ∧ options t' = options t ∧ createdAt t' = createdAt t
    ∧ attempts t <= attempts t'
    ∧ (finished t → t' = t).
Proof. apply run_fields. Qed.

Lemma records_keep_identity_witness :
  reachable mixedRegistry
  ∧ ∃ t t',
      heap mixedRegistry !! 0%nat = Some t
      ∧ heap (run [CallClearCompletedTasks; WorkerTick 2000] mixedRegistry)
          !! 0%nat = Some t'
      ∧ id t' = id t.
Proof.
  assert (Hr : reachable mixedRegistry) by apply reachable_run, reachable_init.
  split; [exact Hr|].
  destruct (heap mixedRegistry !! 0%nat) as [t|] eqn:Hl;
    [|by vm_compute in Hl].
  destruct (records_keep_identity mixedRegistry
              [CallClearCompletedTasks; WorkerTick 2000] 0 t Hr Hl)
    as (t' & Hl' & Hid & _).
  exists t, t'. by split_and!.
Defined.

(** ** Dispatch respects the delays *)

Lemma dispatch_heap_length_eq ev s :
  (∀ name h o now rnd, ev ≠ CallAddTask name h o now rnd) →
  length (heap (dispatch ev s)) = length (heap s).
Proof.
  intros Hne.
  destruct ev as [name h o now rnd|taskId| |now|r0 ev|r0 now|taskId|];
    try done.
  - by destruct (Hne name h o now rnd).
  - simpl. unfold cancelTask. destruct (lookupTask s taskId); [|done].
    by destruct (_ || _).
  - destruct (dispatch_WorkerTick now s) as [-> | ->]; [done|].
    destruct (processNextTask_cases now s) as [[-> _]|(r & t & _ & _ & ->)];
      [done|]. simpl. by rewrite length_insert.
  - simpl. destruct (take_activation r0 (awaiting s)) as [[a rest]|]; [|done].
    destruct (promise (act_exec a)); [|done].
    unfold processNextTask_resume. simpl. by rewrite handleOutcome_length.
  - simpl. by destruct (take_timer taskId (purgeTimers s)).
Qed.

(** An object enters the store through [addTask] only, as a pending record
    that was never attempted. *)
Lemma dispatch_new_object ev s r t' :
  heap s !! r = None → heap (dispatch ev s) !! r = Some t' →
  ∃ name h o now rnd,
    ev = CallAddTask name h o now rnd ∧ isEnabled s = true
    ∧ r = length (heap s)
    ∧ t' = mkTask (generateTaskId now rnd) name h (normalize s o) now 0
             None None pending.
Proof.
  intros Hn Hl'.
  destruct ev as [name h o now rnd|taskId| |now|r0 ev|r0 now|taskId|];
    try (exfalso; apply lookup_ge_None in Hn; apply lookup_lt_Some in Hl';
         rewrite dispatch_heap_length_eq in Hl' by done; lia).
  simpl in Hl'. unfold addTask in Hl'.
  destruct (isEnabled s) eqn:He; simpl in Hl'; [|congruence].
  apply lookup_app_Some in Hl' as [?|[Hlen Hl']]; [congruence|].
  apply lookup_ge_None in Hn.
  destruct (r - length (heap s))%nat eqn:Hr; simpl in Hl'; [|done].
  injection Hl' as <-. exists name, h, o, now, rnd.
  split_and!; try done. lia.
Qed.

(** A worker tick changes an object only if that object was eligible at the
    instant of the tick. *)
Lemma dispatch_claim_available s now r t t' :
  heap s !! r = Some t → heap (dispatch (WorkerTick now) s) !! r = Some t' →
  t' ≠ t → available now t = true.
Proof.
  intros Hl Hl' Hne.
  destruct (dispatch_WorkerTick now s) as [Heq|Heq]; rewrite Heq in Hl';
    [congruence|].
  destruct (processNextTask_cases now s)
    as [[Hsame _]|(r1 & t1 & Hnext & _ & Hclaim)].
  { rewrite Hsame in Hl'. congruence. }
  rewrite Hclaim in Hl'. unfold_with.
  destruct (decide (r1 = r)) as [->|Hr].
  - destruct (getNextTask_Some _ _ _ Hnext) as (l1 & l2 & Hcand & _).
    assert (Hin : (r, t1) ∈ filter (λ x, available now x.2) (taskRefs s)).
    { rewrite Hcand. apply elem_of_app. right. apply list_elem_of_here. }
    apply list_elem_of_filter in Hin as [Hav [_ Hl1]%elem_taskRefs].
    assert (t1 = t) as -> by congruence. by apply Is_true_true.
  - rewrite list_lookup_insert_ne in Hl' by done. congruence.
Qed.

Lemma reachable_timing s :
  reachable s → ∀ r t, heap s !! r = Some t → timingOk t.
Proof.
  induction 1 as [cfg|s ev Hs IH]; intros r t' Hl'.
  - unfold constructor in Hl'.
    by destruct (match cfg with Some c => _ | None => _ end).
  - destruct (heap s !! r) as [t|] eqn:Hl.
    + specialize (IH r t Hl). pose proof (reachable_attempts s Hs r t Hl) as Hatt.
      destruct (dispatch_object s ev r t' (reachable_invariant s Hs) Hl')
        as [Hsame|[(Hn & _)|[(t0 & now & -> & Hl0 & Hst & Ht')
                            |(t0 & now & _ & Hl0 & Hst & Hout)]]].
      * congruence.
      * congruence.
      * assert (t0 = t) as -> by congruence.
        assert (Hav : available now t = true).
        { apply (dispatch_claim_available s now r t t' Hl Hl').
          intros ->. apply (f_equal status) in Ht'. simpl in Ht'. congruence. }
        apply available_spec in Hav as (_ & Hdelay & Hretry).
        unfold attemptsOk in Hatt. rewrite Hst in Hatt.
        subst t'. unfold timingOk. simpl. split_and!.
        -- split; [done | lia].
        -- intros l [= <-]. done.
        -- intros _ d l Hd [= <-]. auto.
      * assert (t0 = t) as -> by congruence.
        destruct IH as (H1 & H2 & H3). unfold timingOk.
        destruct Hout as [-> |[[_ ->]|[_ ->]]]; simpl; split_and!; try done.
        -- intros _. apply H3. congruence.
        -- intros _. apply H3. congruence.
    + destruct (dispatch_new_object ev s r t' Hl Hl')
        as (name & h & o & now & rnd & _ & _ & _ & ->).
      unfold timingOk. simpl. by split_and!.
Qed.



(** ** Attempts and handler calls *)

Lemma sum_attempts_app (l1 l2 : list QueuedTask) :
  foldr (λ t acc, attempts t + acc) 0 (l1 ++ l2) =
    foldr (λ t acc, attempts t + acc) 0 l1
    + foldr (λ t acc, attempts t + acc) 0 l2.
Proof. induction l1 as [|t l1 IH]; simpl; lia. Qed.

Lemma sum_attempts_insert (l : list QueuedTask) r t t' :
  l !! r = Some t →
  foldr (λ t acc, attempts t + acc) 0 (<[r := t']> l) =
    foldr (λ t acc, attempts t + acc) 0 l - attempts t + attempts t'.
Proof.
  revert r. induction l as [|x l IH]; intros [|r] Hl; simpl in *; try done.
  - injection Hl as ->. lia.
  - rewrite (IH r Hl). lia.
Qed.

(** X9. In every reachable state the attempts recorded on all task objects
    add up to the number of handler calls made so far: every dispatch calls
    its handler once, and no call goes uncounted. *)
Theorem attempts_count_handler_calls (s : AsyncTaskService) :
  reachable s → totalAttempts s = Z.of_nat (length (handlerCalls s)).
Proof.
  unfold totalAttempts. induction 1 as [cfg|s ev Hs IH].
  - unfold constructor.
    by destruct (match cfg with Some c => _ | None => _ end).
  - pose proof (reachable_invariant s Hs) as Hinv.
    destruct ev as [name h o now rnd|taskId| |now|r0 ev|r0 now|taskId|];
      try done.
    + simpl. unfold addTask. destruct (isEnabled s); simpl; [|done].
      rewrite sum_attempts_app. simpl. lia.
    + simpl. unfold cancelTask. destruct (lookupTask s taskId); [|done].
      by destruct (_ || _).
    + destruct (dispatch_WorkerTick now s) as [-> | ->]; [done|].
      destruct (processNextTask_cases now s)
        as [[-> _]|(r & t & Hnext & _ & ->)]; [done|].
      apply getNextTask_elem in Hnext as [[_ Hl]%elem_taskRefs _].
      unfold_with. rewrite (sum_attempts_insert _ _ t) by done.
      rewrite length_app. simpl. lia.
    + simpl.
      destruct (take_activation r0 (awaiting s)) as [[a rest]|] eqn:Htake;
        [|done].
      destruct (promise (act_exec a)) as [out|]; [|done].
      apply take_activation_Some in Htake as [Ha Hperm].
      destruct (inv_awaiting_running s Hinv r0) as (t0 & Hl0 & _).
      { unfold awaitingRefs. rewrite Hperm, fmap_cons, Ha.
        apply list_elem_of_here. }
      assert (Hl0' : heap (with_awaiting rest s) !! r0 = Some t0) by done.
      destruct (handleOutcome_heap r0 out now _ t0 Hl0')
        as (t1 & Hh & _ & _ & _ & _ & _ & _ & _ & Ho).
      unfold processNextTask_resume. simpl.
      rewrite handleOutcome_handlerCalls, Hh. simpl.
      rewrite (sum_attempts_insert _ _ t0) by done.
      assert (attempts t1 = attempts t0).
      { destruct out; [by subst|].
        destruct (attempts t0 <? retries (options t0)); by subst. }
      lia.
    + simpl. by destruct (take_timer taskId (purgeTimers s)).
Qed.

Lemma attempts_count_handler_calls_witness :
  reachable threeFailures
  ∧ totalAttempts threeFailures = Z.of_nat (length (handlerCalls threeFailures)).
Proof.
  assert (Hr : reachable threeFailures).
  { unfold threeFailures, twoFailures. do 2 apply reachable_run.
    apply reachable_init. }
  split; [exact Hr|]. exact (attempts_count_handler_calls threeFailures Hr).
Defined.

(** ** After shutdown *)

Lemma handleOutcome_runningTasks r o now s :
  runningTasks (handleOutcome r o now s) = runningTasks s.
Proof.
  unfold handleOutcome. destruct (heap s !! r) as [t|]; [|done].
  destruct o; [done|]. by destruct (_ <? _).
Qed.

Lemma dispatch_after_shutdown ev s :
  invariant s → isShuttingDown s = true →
  isShuttingDown (dispatch ev s) = true
  ∧ handlerCalls (dispatch ev s) = handlerCalls s
  ∧ runningTasks (dispatch ev s) <= runningTasks s
  ∧ (∀ r t, heap s !! r = Some t → status t = pending →
       heap (dispatch ev s) !! r = Some t).
Proof.
  intros Hinv Hsd.
  assert (Hflag : isShuttingDown (dispatch ev s) = true).
  { destruct (dispatch_flags ev s) as [_ [->| ->]]; done. }
  assert (Htick : ∀ now, dispatch (WorkerTick now) s = s).
  { intros now. simpl. rewrite Hsd. by destruct (workers s). }
  split; [done|].
  destruct ev as [name h o now rnd|taskId| |now|r0 ev|r0 now|taskId|];
    try (rewrite Htick); try (by split_and!).
  - simpl. unfold addTask. destruct (isEnabled s); simpl; [|by split_and!].
    split_and!; try done. intros r t Hl _. apply lookup_app_l_Some, Hl.
  - simpl. unfold cancelTask. destruct (lookupTask s taskId); [|by split_and!].
    destruct (_ || _); by split_and!.
  - simpl.
    destruct (take_activation r0 (awaiting s)) as [[a rest]|] eqn:Htake;
      [|by split_and!].
    destruct (promise (act_exec a)) as [out|]; [|by split_and!].
    apply take_activation_Some in Htake as [Ha Hperm].
    destruct (inv_awaiting_running s Hinv r0) as (t0 & Hl0 & Hst0).
    { unfold awaitingRefs. rewrite Hperm, fmap_cons, Ha.
      apply list_elem_of_here. }
    assert (Hl0' : heap (with_awaiting rest s) !! r0 = Some t0) by done.
    destruct (handleOutcome_heap r0 out now _ t0 Hl0') as (t1 & Hh & _).
    unfold processNextTask_resume. simpl.
    rewrite handleOutcome_handlerCalls, handleOutcome_runningTasks, Hh. simpl.
    split_and!; [done|lia|].
    intros r t Hl Hst. rewrite list_lookup_insert_ne; [done|].
    intros ->. congruence.
  - simpl. destruct (take_timer taskId (purgeTimers s)); by split_and!.
Qed.

(** X10. After [onModuleDestroy], under every later sequence of events: no
    handler is called any more, no interval exists, the in-flight counter
    only goes down, and every record that was pending stays as it was, never
    dispatched.  The enabled flag is not cleared, so [addTask] is still
    accepted and the task it adds stays pending. *)
Theorem nothing_claimed_after_shutdown (s : AsyncTaskService)
    (evs : list Event) :
  reachable s →
  let s1 := onModuleDestroy s in
  let s2 := run evs s1 in
  isShuttingDown s2 = true
  ∧ workers s2 = []
  ∧ handlerCalls s2 = handlerCalls s
  ∧ runningTasks s2 <= runningTasks s
  ∧ isEnabled s2 = isEnabled s
  ∧ (∀ r t, heap s !! r = Some t → status t = pending →
       heap s2 !! r = Some t)
  ∧ (isEnabled s = true →
     ∀ name h o now rnd, ∃ taskId s3,
       addTask name h o now rnd s2 = Return (taskId, s3)
       ∧ ∀ later, ∃ t,
           heap (run later s3) !! length (heap s2) = Some t
           ∧ status t = pending ∧ attempts t = 0).
Proof.
  intros Hs s1 s2.
  assert (Hgen : ∀ evs' s0, reachable s0 → isShuttingDown s0 = true →
    isShuttingDown (run evs' s0) = true
    ∧ handlerCalls (run evs' s0) = handlerCalls s0
    ∧ runningTasks (run evs' s0) <= runningTasks s0
    ∧ isEnabled (run evs' s0) = isEnabled s0
    ∧ (∀ r t, heap s0 !! r = Some t → status t = pending →
         heap (run evs' s0) !! r = Some t)).
  { clear. induction evs' as [|ev evs' IH]; intros s0 Hs0 Hsd.
    - split_and!; (done || lia).
    - destruct (dispatch_after_shutdown ev s0 (reachable_invariant s0 Hs0) Hsd)
        as (Hsd' & Hc & Hr & Hp).
      destruct (IH (dispatch ev s0) (reachable_step s0 ev Hs0) Hsd')
        as (H1 & H2 & H3 & H4 & H5).
      simpl. split_and!; try congruence; try lia.
      + rewrite H4. apply dispatch_flags.
      + intros r t Hl Hst. auto. }
  assert (Hs1 : reachable s1) by apply (reachable_step s CallOnModuleDestroy Hs).
  assert (Hs2 : reachable s2) by by apply reachable_run.
  destruct (Hgen evs s1 Hs1 eq_refl) as (H1 & H2 & H3 & H4 & H5).
  split_and!; try done.
  - rewrite (reachable_workers s2 Hs2).
    fold s2 in H1. rewrite H1. by rewrite andb_false_r.
  - intros He name h o now rnd. unfold addTask at 1.
    fold s2 in H4. change (isEnabled s1) with (isEnabled s) in H4.
    rewrite H4, He. simpl. eexists _, _. split; [done|]. intros later.
    set (s3 := with_tasks _ _).
    assert (Hs3 : reachable s3).
    { pose proof (reachable_step s2 (CallAddTask name h o now rnd) Hs2) as H.
      simpl in H. unfold addTask in H. rewrite H4, He in H. exact H. }
    destruct (Hgen later s3 Hs3 H1) as (_ & _ & _ & _ & Hkeep).
    eexists. split; [apply Hkeep; [apply list_lookup_middle|]|]; done.
Qed.

Lemma nothing_claimed_after_shutdown_witness :
  reachable mixedRegistry
  ∧ handlerCalls (run [WorkerTick 5000; WorkerTick 6000]
                    (onModuleDestroy mixedRegistry))
    = handlerCalls mixedRegistry.
Proof.
  assert (Hr : reachable mixedRegistry) by apply reachable_run, reachable_init.
  split; [exact Hr|].
  exact (proj1 (proj2 (proj2 (nothing_claimed_after_shutdown mixedRegistry
                                 [WorkerTick 5000; WorkerTick 6000] Hr)))).
Defined.

(** ** Records and their ids *)

Lemma handleOutcome_tasks r o now s :
  tasks (handleOutcome r o now s) = tasks s.
Proof.
  unfold handleOutcome. destruct (heap s !! r) as [t|]; [|done].
  destruct o; [done|]. by destruct (_ <? _).
Qed.

(** An entry of the registry was there before, or [addTask] has just made
    it, for the id it generated and the object it allocated. *)
Lemma dispatch_tasks_elem ev s k r :
  (k, r) ∈ tasks (dispatch ev s) →
  (k, r) ∈ tasks s
  ∨ ∃ name h o now rnd,
      ev = CallAddTask name h o now rnd ∧ isEnabled s = true
      ∧ k = generateTaskId now rnd ∧ r = length (heap s).
Proof.
  destruct ev as [name h o now rnd|taskId| |now|r0 ev|r0 now|taskId|].
  - simpl. unfold addTask. destruct (isEnabled s) eqn:He; simpl; [|by left].
    intros [[= -> ->]|?]%JsMapFacts.elem_of_set; [right|by left].
    by exists name, h, o, now, rnd.
  - simpl. unfold cancelTask. destruct (lookupTask s taskId); [|by left].
    destruct (_ || _); simpl; [by left|].
    intros [? _]%JsMapFacts.elem_of_delete. by left.
  - simpl. intros Hin. left. revert Hin. apply sublist_subseteq.
    apply foldl_delete_sublist.
  - destruct (dispatch_WorkerTick now s) as [-> | ->]; [by left|].
    by destruct (processNextTask_cases now s)
      as [[-> _]|(r1 & t1 & _ & _ & ->)]; left.
  - by left.
  - simpl. destruct (take_activation r0 (awaiting s)) as [[a rest]|]; [|by left].
    destruct (promise (act_exec a)); [|by left].
    unfold processNextTask_resume. simpl. rewrite handleOutcome_tasks. by left.
  - simpl. destruct (take_timer taskId (purgeTimers s)); [|by left].
    simpl. intros [? _]%JsMapFacts.elem_of_delete. by left.
  - by left.
Qed.

Lemma reachable_entry_id s :
  reachable s →
  ∀ k r t, (k, r) ∈ tasks s → heap s !! r = Some t → id t = k.
Proof.
  induction 1 as [cfg|s ev Hs IH]; intros k r t' Hin Hl'.
  - unfold constructor in Hin.
    destruct (match cfg with Some c => _ | None => _ end);
      by apply elem_of_nil in Hin.
  - pose proof (reachable_invariant s Hs) as Hinv.
    destruct (dispatch_tasks_elem ev s k r Hin)
      as [Hold|(name & h & o & now & rnd & -> & He & -> & ->)].
    + assert (Hlt : (r < length (heap s))%nat).
      { apply (inv_valid s Hinv), list_elem_of_fmap. by exists (k, r). }
      apply lookup_lt_is_Some in Hlt as [t Hl].
      destruct (dispatch_fields s ev r t t' Hinv Hl Hl') as (-> & _). eauto.
    + simpl in Hl'. unfold addTask in Hl'. rewrite He in Hl'. simpl in Hl'.
      rewrite list_lookup_middle in Hl' by done. by injection Hl' as <-.
Qed.

(** X11. In every reachable state the record that [getTaskStatus] returns
    for an id carries that id. *)
Theorem getTaskStatus_id (s : AsyncTaskService) (taskId : string)
    (t : QueuedTask) :
  reachable s → getTaskStatus s taskId = Some t → id t = taskId.
Proof.
  intros Hs. unfold getTaskStatus, lookupTask.
  destruct (JsMap.get taskId (tasks s)) as [r|] eqn:Hget; [|done].
  intros Hl. apply JsMapFacts.get_Some_elem in Hget.
  by apply (reachable_entry_id s Hs taskId r t).
Qed.

Lemma getTaskStatus_id_witness :
  reachable mixedRegistry
  ∧ ∃ t, getTaskStatus mixedRegistry "task_1300_bbb" = Some t
      ∧ id t = "task_1300_bbb".
Proof.
  assert (Hr : reachable mixedRegistry) by apply reachable_run, reachable_init.
  split; [exact Hr|].
  destruct (getTaskStatus mixedRegistry "task_1300_bbb") as [t|] eqn:Hg;
    [|by vm_compute in Hg].
  exists t. split; [done|].
  exact (getTaskStatus_id mixedRegistry "task_1300_bbb" t Hr Hg).
Defined.

(** ** Automatic removal *)

Lemma dispatch_purgeTimers_elem ev s e :
  invariant s → e ∈ purgeTimers (dispatch ev s) →
  e ∈ purgeTimers s
  ∨ (e.2 = 60000
     ∧ ∃ r t', heap (dispatch ev s) !! r = Some t'
         ∧ id t' = e.1 ∧ status t' = completed).
Proof.
  intros Hinv.
  destruct ev as [name h o now rnd|taskId| |now|r0 ev|r0 now|taskId|];
    try (by left).
  - simpl. unfold addTask. destruct (isEnabled s); by left.
  - simpl. unfold cancelTask. destruct (lookupTask s taskId); [|by left].
    destruct (_ || _); by left.
  - destruct (dispatch_WorkerTick now s) as [-> | ->]; [by left|].
    destruct (processNextTask_timers now s) as [_ ->]. by left.
  - simpl.
    destruct (take_activation r0 (awaiting s)) as [[a rest]|] eqn:Htake;
      [|by left].
    destruct (promise (act_exec a)) as [out|]; [|by left].
    apply take_activation_Some in Htake as [Ha Hperm].
    destruct (inv_awaiting_running s Hinv r0) as (t0 & Hl0 & Hst0).
    { unfold awaitingRefs. rewrite Hperm, fmap_cons, Ha.
      apply list_elem_of_here. }
    unfold processNextTask_resume, handleOutcome. simpl. rewrite Hl0.
    destruct out as [v|err]; simpl.
    + intros [?| ->%list_elem_of_singleton]%elem_of_app; [by left|].
      right. split; [done|]. exists r0, (set_status completed t0).
      split; [|done]. apply list_lookup_insert_eq.
      by eapply lookup_lt_Some.
    + destruct (_ <? _); by left.
  - simpl. destruct (take_timer taskId (purgeTimers s)) as [rest|] eqn:Ht;
      [|by left].
    simpl. intros He. left. eauto using take_timer_elem.
Qed.

(** X12. In every reachable state each pending purge timer has the delay
    60000 ms and was set for a record that is completed: records that failed
    are never scheduled for automatic removal. *)
Theorem purge_only_completed (s : AsyncTaskService) (e : string * Z) :
  reachable s → e ∈ purgeTimers s →
  e.2 = 60000
  ∧ ∃ r t, heap s !! r = Some t ∧ id t = e.1 ∧ status t = completed.
Proof.
  intros Hs. revert e. induction Hs as [cfg|s ev Hs IH]; intros e He.
  - unfold constructor in He.
    destruct (match cfg with Some c => _ | None => _ end);
      by apply elem_of_nil in He.
  - pose proof (reachable_invariant s Hs) as Hinv.
    destruct (dispatch_purgeTimers_elem ev s e Hinv He) as [Hold|Hnew];
      [|done].
    destruct (IH e Hold) as (Hd & r & t & Hl & Hid & Hst).
    split; [done|]. exists r, t. split; [|done].
    assert (Hsome : is_Some (heap (dispatch ev s) !! r)).
    { apply lookup_lt_is_Some. apply lookup_lt_Some in Hl.
      pose proof (dispatch_heap_length ev s). lia. }
    destruct Hsome as [t' Hl'].
    destruct (dispatch_fields s ev r t t' Hinv Hl Hl')
      as (_ & _ & _ & _ & _ & _ & Hfin).
    rewrite Hl'. f_equal. apply Hfin. by left.
Qed.

Lemma purge_only_completed_witness :
  reachable mixedRegistry
  ∧ ("task_1000_aaa", 60000) ∈ purgeTimers mixedRegistry
  ∧ ∃ r t, heap mixedRegistry !! r = Some t
      ∧ id t = "task_1000_aaa" ∧ status t = completed.
Proof.
  assert (Hr : reachable mixedRegistry) by apply reachable_run, reachable_init.
  assert (Hin : ("task_1000_aaa", 60000) ∈ purgeTimers mixedRegistry).
  { vm_compute. apply list_elem_of_here. }
  split_and!; [exact Hr | exact Hin |].
  exact (proj2 (purge_only_completed mixedRegistry _ Hr Hin)).
Defined.

(** ** Submission composed with the other operations *)

Lemma addTask_enabled name h o now rnd s :
  isEnabled s = true →
  addTask name h o now rnd s =
    Return (generateTaskId now rnd,
            with_tasks (JsMap.set (generateTaskId now rnd) (length (heap s))
                          (tasks s))
              (with_heap
                 (heap s ++ [mkTask (generateTaskId now rnd) name h
                               (normalize s o) now 0 None None pending]) s)).
Proof. intros He. unfold addTask. by rewrite He. Qed.

Lemma taskRefs_ext (hp hp' : list QueuedTask) (m : list (string * nat)) :
  (∀ r, r ∈ JsMap.values m → hp' !! r = hp !! r) →
  omap (λ e, (e.2,.) <$> hp' !! e.2) m = omap (λ e, (e.2,.) <$> hp !! e.2) m.
Proof.
  unfold JsMap.values. induction m as [|[k r] m IH]; intros Hext; [done|].
  rewrite !omap_cons. simpl.
  rewrite (Hext r) by (rewrite fmap_cons; apply list_elem_of_here).
  rewrite IH; [done|]. intros r' Hr'. apply Hext. rewrite fmap_cons.
  by apply list_elem_of_further.
Qed.

Lemma delete_set_absent {V} k (v : V) m :
  JsMap.get k m = None → JsMap.delete k (JsMap.set k v m) = m.
Proof.
  intros Hget. rewrite set_absent by done. unfold JsMap.delete.
  rewrite filter_app, filter_cons_False, filter_nil, app_nil_r
    by (simpl; intros Hne; by apply Hne).
  apply JsMapFacts.delete_absent. by apply JsMapFacts.get_None.
Qed.

(** X13. In a reachable, enabled state, when the generated id is not yet in
    the registry, [addTask] followed at once by [cancelTask] of the returned
    id returns true and restores the registry: the entries, the statistics
    and the record read under every id are what they were before the
    submission. *)
Theorem submit_then_cancel name h o now rnd (s : AsyncTaskService) :
  reachable s → isEnabled s = true →
  JsMap.get (generateTaskId now rnd) (tasks s) = None →
  ∃ s1,
    addTask name h o now rnd s = Return (generateTaskId now rnd, s1)
    ∧ (cancelTask (generateTaskId now rnd) s1).1 = true
    ∧ tasks (cancelTask (generateTaskId now rnd) s1).2 = tasks s
    ∧ getQueueStats (cancelTask (generateTaskId now rnd) s1).2
      = getQueueStats s
    ∧ ∀ k, getTaskStatus (cancelTask (generateTaskId now rnd) s1).2 k
           = getTaskStatus s k.
Proof.
  intros Hinv%reachable_invariant He Hfresh.
  rewrite (addTask_enabled _ _ _ _ _ _ He). eexists. split; [done|].
  set (taskId := generateTaskId now rnd) in *.
  set (task := mkTask taskId name h (normalize s o) now 0 None None pending).
  set (s1 := with_tasks _ _).
  assert (Hlook : lookupTask s1 taskId = Some task).
  { unfold lookupTask, s1. simpl.
    by rewrite JsMapFacts.get_set_eq, list_lookup_middle. }
  assert (Hcancel : cancelTask taskId s1
                    = (true, with_tasks (tasks s) s1)).
  { unfold cancelTask. rewrite Hlook. simpl. f_equal.
    unfold s1 at 1. simpl. by rewrite delete_set_absent. }
  rewrite Hcancel. simpl.
  assert (Hvalid : ∀ r, r ∈ JsMap.values (tasks s) →
            (heap s ++ [task]) !! r = heap s !! r).
  { intros r Hr. apply lookup_app_l, (inv_valid s Hinv r Hr). }
  split_and!; try done.
  - unfold getQueueStats, taskValues, taskRefs. simpl.
    by rewrite (taskRefs_ext (heap s) (heap s ++ [task]) (tasks s) Hvalid).
  - intros k. unfold getTaskStatus, lookupTask. simpl.
    destruct (JsMap.get k (tasks s)) as [r|] eqn:Hget; [|done].
    apply Hvalid, list_elem_of_fmap. exists (k, r).
    split; [done|]. by apply JsMapFacts.get_Some_elem.
Qed.

Lemma submit_then_cancel_witness :
  reachable mixedRegistry ∧ isEnabled mixedRegistry = true
  ∧ JsMap.get (generateTaskId 1600 "ddd") (tasks mixedRegistry) = None
  ∧ ∃ s1,
      addTask "d" 4%nat TaskOptions.empty 1600 "ddd" mixedRegistry
      = Return (generateTaskId 1600 "ddd", s1)
      ∧ (cancelTask (generateTaskId 1600 "ddd") s1).1 = true.
Proof.
  assert (Hr : reachable mixedRegistry) by apply reachable_run, reachable_init.
  assert (He : isEnabled mixedRegistry = true) by (vm_compute; reflexivity).
  assert (Hf : JsMap.get (generateTaskId 1600 "ddd") (tasks mixedRegistry)
               = None) by (vm_compute; reflexivity).
  split_and!; [exact Hr | exact He | exact Hf |].
  destruct (submit_then_cancel "d" 4%nat TaskOptions.empty 1600 "ddd"
              mixedRegistry Hr He Hf) as (s1 & Hadd & Hcancel & _).
  exists s1. by split.
Defined.




(** X15. In a reachable, enabled state [addDelayedTask] stores a record
    whose delay is the one given, whatever delay the options carried.
    [getNextTask] does not select that record at any instant before its
    creation time plus the delay, and over every later sequence of events
    the record is never attempted before that instant. *)
Theorem addDelayedTask_not_before name h delayMs o now rnd
    (s : AsyncTaskService) :
  reachable s → isEnabled s = true →
  ∃ s1 t0,
    addDelayedTask name h delayMs o now rnd s
    = Return (generateTaskId now rnd, s1)
    ∧ getTaskStatus s1 (generateTaskId now rnd) = Some t0
    ∧ heap s1 !! length (heap s) = Some t0
    ∧ delay (options t0) = delayMs ∧ createdAt t0 = now
    ∧ (∀ now' best, now' < now + delayMs →
         getNextTask now' s1 = Some best → best.1 ≠ length (heap s))
    ∧ (∀ evs t l,
         heap (run evs s1) !! length (heap s) = Some t →
         lastAttempt t = Some l → now + delayMs <= l).
Proof.
  intros Hs He. unfold addDelayedTask.
  pose proof (reachable_step s
    (CallAddTask name h (with_delay delayMs o) now rnd) Hs) as Hs1.
  simpl in Hs1. rewrite (addTask_enabled _ _ _ _ _ _ He) in Hs1 |- *.
  set (taskId := generateTaskId now rnd) in *.
  set (task := mkTask taskId name h (normalize s (with_delay delayMs o)) now 0
                 None None pending) in *.
  set (s1 := with_tasks _ _) in *.
  assert (Hl : heap s1 !! length (heap s) = Some task).
  { unfold s1. simpl. by apply list_lookup_middle. }
  exists s1, task. split_and!; try done.
  - unfold getTaskStatus, lookupTask. unfold s1 at 1. simpl.
    by rewrite JsMapFacts.get_set_eq.
  - intros now' [r t] Hlt Hnext Hr. simpl in Hr. subst r.
    destruct (getNextTask_Some _ _ _ Hnext) as (l1 & l2 & Heq & _).
    assert (Hin : (length (heap s), t)
                  ∈ filter (λ x, available now' x.2) (taskRefs s1)).
    { rewrite Heq. apply elem_of_app. right. apply list_elem_of_here. }
    apply list_elem_of_filter in Hin as [Hav [_ Hl']%elem_taskRefs].
    assert (t = task) as -> by congruence.
    apply Is_true_true, available_spec in Hav as (_ & Hd & _).
    simpl in Hd. lia.
  - intros evs t l Hlt Hlast.
    destruct (run_fields s1 evs _ task Hs1 Hl)
      as (t' & Hl' & _ & _ & _ & Ho & Hc & _).
    assert (t' = t) as -> by congruence.
    destruct (reachable_timing (run evs s1) (reachable_run evs s1 Hs1) _ t Hlt)
      as (_ & Hdelay & _).
    specialize (Hdelay l Hlast). rewrite Ho, Hc in Hdelay. simpl in Hdelay. lia.
Qed.

Lemma addDelayedTask_not_before_witness :
  reachable started ∧ isEnabled started = true
  ∧ ∃ s1 t0,
      addDelayedTask "later" 2%nat 500 TaskOptions.empty 1000 "zzz" started
      = Return (generateTaskId 1000 "zzz", s1)
      ∧ getTaskStatus s1 (generateTaskId 1000 "zzz") = Some t0
      ∧ delay (options t0) = 500.
Proof.
  assert (Hr : reachable started) by apply reachable_init.
  split_and!; [exact Hr | reflexivity |].
  destruct (addDelayedTask_not_before "later" 2%nat 500 TaskOptions.empty
              1000 "zzz" started Hr eq_refl)
    as (s1 & t0 & Hadd & Hget & _ & Hd & _).
  exists s1, t0. by split_and!.
Defined.

(** ** From the environment to the flag *)

Lemma secretOr_throws v env message d :
  (∃ m, secretOr v env message d = Throw m) ↔
    env = "production" ∧ orElse v "" = "".
Proof.
  unfold secretOr, orElse. destruct v as [x|].
  - destruct (decide (x = "")) as [->|Hx].
    + destruct (decide (env = "production")); split;
        [eauto | by intros _; eauto | by intros [? ?] | tauto].
    + split; [by intros [? ?] | tauto].
  - destruct (decide (env = "production")); split;
      [eauto | by intros _; eauto | by intros [? ?] | tauto].
Qed.

Lemma constructor_flag c f b :
  features c = Some f → asyncTasksEnabled f = Some b →
  isEnabled (constructor (Some c)) = b
  ∧ workers (constructor (Some c)) = (if b then replicate 5 100 else []).
Proof.
  intros Hf Hb.
  destruct (constructor_fields (Some c)) as (-> & _ & _ & _ & _ & ->).
  unfold asyncTasksFlag. by rewrite Hf, Hb.
Qed.

(** X16. [getAppConfig] throws exactly when the environment is production
    and [COOKIE_SECRET] or [JWT_SECRET] is unset or empty.  When it returns,
    the service constructed from the configuration is enabled unless
    [ASYNC_TASKS_ENABLED] is exactly the string [false]: it is enabled when
    the variable is unset, and any other value enables it too. *)
Theorem getAppConfig_async_flag (Number : option string → option Z)
    (penv : Env) :
  ((∃ m, getAppConfig Number penv = Throw m) ↔
     orElse (penv "APP_ENV") "development" = "production"
     ∧ (orElse (penv "COOKIE_SECRET") "" = ""
        ∨ orElse (penv "JWT_SECRET") "" = ""))
  ∧ (∀ cfg, getAppConfig Number penv = Return cfg →
       (isEnabled (constructor (Some cfg)) = false ↔
          penv "ASYNC_TASKS_ENABLED" = Some "false")
       ∧ (penv "ASYNC_TASKS_ENABLED" = None →
          qs_isEnabled (getQueueStats (constructor (Some cfg))) = true
          ∧ qs_workers (getQueueStats (constructor (Some cfg))) = 5)).
Proof.
  unfold getAppConfig.
  set (env := orElse (penv "APP_ENV") "development").
  pose proof (secretOr_throws (penv "COOKIE_SECRET") env
    "COOKIE_SECRET is required in production"
    "dev-cookie-secret-change-in-production") as Hc.
  pose proof (secretOr_throws (penv "JWT_SECRET") env
    "JWT_SECRET is required in production"
    "dev-jwt-secret-change-in-production") as Hj.
  destruct (secretOr (penv "COOKIE_SECRET") env _ _) as [c|mc].
  - destruct (secretOr (penv "JWT_SECRET") env _ _) as [j|mj].
    + split.
      * split; [by intros [? ?]|]. intros [Hp [Hs|Hs]].
        -- by destruct (proj2 Hc (conj Hp Hs)) as [? ?].
        -- by destruct (proj2 Hj (conj Hp Hs)) as [? ?].
      * intros cfg [= <-].
        match goal with
        | |- context [constructor (Some ?c)] =>
            destruct (constructor_flag c _ _ eq_refl eq_refl) as [Hen Hw]
        end.
        unfold getQueueStats. simpl qs_isEnabled. simpl qs_workers.
        rewrite Hen, Hw. unfold notFalse.
        destruct (decide (penv "ASYNC_TASKS_ENABLED" = Some "false"))
          as [Heq|Hne].
        -- rewrite bool_decide_true by done. simpl.
           split; [done|]. intros Hnone. congruence.
        -- rewrite bool_decide_false by done. simpl.
           split; [split; [done | by intros ?] | done].
    + split; [|done]. split; [|eauto]. intros _.
      destruct (proj1 Hj) as [Hp Hs]; eauto.
  - split; [|done]. split; [|eauto]. intros _.
    destruct (proj1 Hc) as [Hp Hs]; eauto.
Qed.

(** ** The health endpoint and the service *)

Lemma run_isEnabled evs s : isEnabled (run evs s) = isEnabled s.
Proof.
  revert s. induction evs as [|ev evs IH]; intros s; [done|].
  simpl. rewrite IH. apply dispatch_flags.
Qed.

(** X17. When the configuration is absent or has its [features], the
    [asyncTasks] flag that the health endpoint reports from the
    configuration equals the [isEnabled] figure that [getQueueStats] reports
    from the service built from the same configuration, at every later
    moment.  For a configuration that lacks [features] the health endpoint
    throws, while the service takes itself to be disabled. *)
Theorem health_flag_agrees (cfg : option AppConfig) (evs : list Event) :
  ((∀ c, cfg = Some c → is_Some (features c)) →
   ∃ f, getAppInfoFeatures cfg = Return f
     ∧ aif_asyncTasks f
       = qs_isEnabled (getQueueStats (run evs (constructor cfg))))
  ∧ (∀ c, cfg = Some c → features c = None →
       (∃ m, getAppInfoFeatures cfg = Throw m)
       ∧ qs_isEnabled (getQueueStats (run evs (constructor cfg))) = false).
Proof.
  assert (Hen : qs_isEnabled (getQueueStats (run evs (constructor cfg)))
                = asyncTasksFlag cfg).
  { simpl. rewrite run_isEnabled. apply constructor_fields. }
  rewrite Hen. split.
  - intros Hfeat. destruct cfg as [c|]; simpl; [|eauto].
    destruct (Hfeat c eq_refl) as [f Hf]. rewrite Hf. eauto.
  - intros c -> Hf. simpl. rewrite Hf. eauto.
Qed.
